(** * Maglev consistent hashing: a shallow embedding of [maglev.go]

    The development follows the later revision of the listing (the one whose
    [Add] and [Remove] report capacity and empty-membership errors); the
    [Add] and [Remove] of the earlier revision are in the module [Earlier].

    Conventions of the embedding.
    - [uint64] values are integers of [Z] in [[0, 2^64)]; every arithmetic
      operation of the source is followed by its reduction modulo [2^64].
    - Go's [int] is taken to be 64 bits wide; the conversion from [uint64]
      is two's complement.  Values of type [int] that the source only uses
      as slice lengths, positions and cursors are natural numbers.
    - A slice is a list, a [nil] slice the empty list.  A map is a [gmap];
      the [nil] map, which reads as empty and cannot be written, is [None].
    - A run-time panic is an explicit outcome of every operation that can
      raise one.
    - The counters of [Add] and [Remove] count the arguments of one call;
      they are integers without wrap-around. *)

From Stdlib Require Import ZArith Znumtheory Zpow_facts Lia.
From Stdlib Require Import Zmod.Zmod Zmod.Zstar.
From stdpp Require Import base numbers list sorting gmap strings.

#[local] Open Scope Z_scope.

(** ** Outcomes *)

Inductive panic : Type :=
  | IndexOutOfRange
  | NilMapWrite
  | DivideByZero
  | Explicit (msg : string).

Inductive outcome (A : Type) : Type :=
  | Ok (a : A)
  | Panic (p : panic)
  | OutOfFuel.

Arguments Ok {A} a.
Arguments Panic {A} p.
Arguments OutOfFuel {A}.

#[global] Instance outcome_bind : MBind outcome := fun A B k x =>
  match x with
  | Ok a => k a
  | Panic p => Panic p
  | OutOfFuel => OutOfFuel
  end.

#[global] Instance outcome_ret : MRet outcome := fun A a => Ok a.

(** [s[i]] on a slice. *)
Definition index {A : Type} (s : list A) (i : nat) : outcome A :=
  match s !! i with
  | Some a => Ok a
  | None => Panic IndexOutOfRange
  end.

(** ** Machine integers *)

Definition two64 : Z := 2 ^ 64.

Definition u64 (x : Z) : Z := x mod two64.

(** [int(x)] for an [x] of type [uint64]. *)
Definition int_of_u64 (x : Z) : Z :=
  if x <? 2 ^ 63 then x else x - two64.

(** [x % y] on [uint64]. *)
Definition u64_rem (x y : Z) : outcome Z :=
  if y =? 0 then Panic DivideByZero else Ok (x mod y).

(** ** Strings are compared byte by byte *)

Definition str_lt (a b : string) : bool := String.ltb a b.
Definition str_ge (a b : string) : bool := negb (str_lt a b).

(** Non-decreasing and strictly increasing lists of strings. *)
Definition str_le (a b : string) : Prop := str_lt b a = false.
Definition sorted (l : list string) : Prop := StronglySorted str_le l.
Definition strictly_sorted (l : list string) : Prop :=
  StronglySorted (fun a b => str_lt a b = true) l.

(** ** [sort.Search] and [sort.SearchStrings]

    The loop of [sort.Search]: [i, j := 0, n], and while [i < j] the
    midpoint [h] replaces [i] by [h + 1] if [f h] is false and [j] by [h]
    otherwise.  The interval shrinks at each turn, so [j - i] turns are
    enough. *)

Fixpoint search_loop (f : nat -> outcome bool) (fuel i j : nat) : outcome nat :=
  if (i <? j)%nat then
    match fuel with
    | O => OutOfFuel
    | S fuel' =>
        let h := ((i + j) / 2)%nat in
        b ← f h;
        if negb b then search_loop f fuel' (h + 1)%nat j
        else search_loop f fuel' i h
    end
  else Ok i.

Definition Search (n : nat) (f : nat -> outcome bool) : outcome nat :=
  search_loop f n 0%nat n.

Definition SearchStrings (a : list string) (x : string) : outcome nat :=
  Search (length a) (fun i => s ← index a i; Ok (str_ge s x)).

(** ** [sort.Strings] *)

Fixpoint insert_sorted (x : string) (l : list string) : list string :=
  match l with
  | [] => [x]
  | y :: l' => if str_lt y x then y :: insert_sorted x l' else x :: y :: l'
  end.

Definition sort_strings (l : list string) : list string :=
  foldr insert_sorted [] l.

(** ** The data model *)

(** A [Hasher] returns a [uint64]: whatever integer function stands for
    it is read modulo [2^64]. *)
Record Hasher : Type := { hash_fun : string -> Z }.

Definition Hash (h : Hasher) (s : string) : Z := u64 (hash_fun h s).

Record Maglev : Type := {
  permutations : option (gmap string (list Z));
  lookup : list string;
  nodes : list string;
  numPartitions : Z;
  h1 : Hasher;
  h2 : Hasher
}.

Definition set_permutations (m : Maglev) (ps : option (gmap string (list Z))) : Maglev :=
  {| permutations := ps; lookup := lookup m; nodes := nodes m;
     numPartitions := numPartitions m; h1 := h1 m; h2 := h2 m |}.

Definition set_lookup (m : Maglev) (t : list string) : Maglev :=
  {| permutations := permutations m; lookup := t; nodes := nodes m;
     numPartitions := numPartitions m; h1 := h1 m; h2 := h2 m |}.

Definition set_nodes (m : Maglev) (ns : list string) : Maglev :=
  {| permutations := permutations m; lookup := lookup m; nodes := ns;
     numPartitions := numPartitions m; h1 := h1 m; h2 := h2 m |}.

(** Reading [m.permutations[ID]]: a missing key, and any key of the nil
    map, reads as the nil slice. *)
Definition perm_of (ps : option (gmap string (list Z))) (ID : string) : list Z :=
  match ps with
  | Some g => default [] (g !! ID)
  | None => []
  end.

Definition perm_store (ps : option (gmap string (list Z))) (ID : string) (v : list Z)
  : outcome (option (gmap string (list Z))) :=
  match ps with
  | Some g => Ok (Some (<[ID := v]> g))
  | None => Panic NilMapWrite
  end.

Definition perm_delete (ps : option (gmap string (list Z))) (ID : string)
  : option (gmap string (list Z)) :=
  match ps with
  | Some g => Some (delete ID g)
  | None => None
  end.

(** ** Primality of the partition count

    [ProbablyPrime(0)] is exact on arguments below [2^64]; it is modelled by
    trial division. *)

Fixpoint no_divisor_from (fuel : nat) (d p : Z) : bool :=
  match fuel with
  | O => true
  | S fuel' =>
      if p <? d * d then true
      else if p mod d =? 0 then false
      else no_divisor_from fuel' (d + 1) p
  end.

Definition ProbablyPrime (p : Z) : bool :=
  (1 <? p) && no_divisor_from (Z.to_nat (Z.sqrt p)) 2 p.

(** ** Permutation generator

    [make([]uint64, numPartitions)] needs a length that fits [int] and the
    allocator; the list of the embedding has no such limit.  The properties
    of the generator's result are stated for partition counts below [2^32],
    or at the prime [2^32 + 15]; auxiliary lemmas with a wider range are
    used within these only. *)

Definition perm_entry (offset skip p i : Z) : Z :=
  u64 (offset + i * skip) mod p.

Definition generatePermutationsForNode (m : Maglev) (node : string) : outcome (list Z) :=
  offset ← u64_rem (Hash (h1 m) node) (numPartitions m);
  r ← u64_rem (Hash (h2 m) node) (u64 (numPartitions m - 1));
  let skip := u64 (r + 1) in
  Ok ((fun i => perm_entry offset skip (numPartitions m) i) <$> seqZ 0 (numPartitions m)).

Fixpoint generatePermutations_loop (m : Maglev) (ns : list string)
    (ps : option (gmap string (list Z))) : outcome (option (gmap string (list Z))) :=
  match ns with
  | [] => Ok ps
  | node :: rest =>
      v ← generatePermutationsForNode m node;
      ps' ← perm_store ps node v;
      generatePermutations_loop m rest ps'
  end.

Definition generatePermutations (m : Maglev) : outcome Maglev :=
  ps ← generatePermutations_loop m (nodes m) (Some ∅);
  Ok (set_permutations m ps).

(** ** Lookup table builder

    [make([]string, numPartitions)] has the length of the cached sequences
    the builder reads, and so stays within the limit of the allocator
    whenever these exist. *)

Record fill : Type := {
  table : list string;
  next : list nat;
  filled : Z
}.

(** The inner loop [for m.lookup[c] != "" { next[i]++; c = perm[next[i]] }],
    entered after [c := perm[next[i]]] has been read; it returns the cursor
    and the free slot it stops at.  The cursor moves forward at each turn
    and the read panics beyond the permutation, so [length perm] turns are
    enough. *)
Fixpoint skip_taken (perm : list Z) (tbl : list string) (fuel cur : nat) (c : Z)
  : outcome (nat * Z) :=
  owner ← index tbl (Z.to_nat c);
  if negb (String.eqb owner "") then
    match fuel with
    | O => OutOfFuel
    | S fuel' =>
        let cur' := S cur in
        c' ← index perm cur';
        skip_taken perm tbl fuel' cur' c'
    end
  else Ok (cur, c).

(** One turn of [for i, ID := range m.nodes]: [inl] is the [return] of the
    source with the finished table, [inr] the state the loop goes on with.
    The write [m.lookup[c] = ID] is in range, the inner loop having read
    [m.lookup[c]]. *)
Definition claim (ps : option (gmap string (list Z))) (p : Z) (i : nat) (ID : string)
    (st : fill) : outcome (list string + fill) :=
  let perm := perm_of ps ID in
  cur ← index (next st) i;
  c ← index perm cur;
  '(cur', c') ← skip_taken perm (table st) (length perm) cur c;
  let tbl := <[Z.to_nat c' := ID]> (table st) in
  let nxt := <[i := S cur']> (next st) in
  let n := u64 (filled st + 1) in
  if n =? p then Ok (inl tbl)
  else Ok (inr {| table := tbl; next := nxt; filled := n |}).

Fixpoint round (ps : option (gmap string (list Z))) (p : Z) (i : nat) (ids : list string)
    (st : fill) : outcome (list string + fill) :=
  match ids with
  | [] => Ok (inr st)
  | ID :: rest =>
      r ← claim ps p i ID st;
      match r with
      | inl tbl => Ok (inl tbl)
      | inr st' => round ps p (S i) rest st'
      end
  end.

(** The outer [for { ... }]: each round either returns or adds [N >= 1]
    to the counter. *)
Fixpoint rounds (ps : option (gmap string (list Z))) (p : Z) (ids : list string)
    (fuel : nat) (st : fill) : outcome (list string) :=
  match fuel with
  | O => OutOfFuel
  | S fuel' =>
      r ← round ps p 0 ids st;
      match r with
      | inl tbl => Ok tbl
      | inr st' => rounds ps p ids fuel' st'
      end
  end.

Definition populateLookup (m : Maglev) : outcome Maglev :=
  let N := length (nodes m) in
  if (N =? 0)%nat then Panic (Explicit "cannot populate lookup table without nodes")
  else
    let st := {| table := replicate (Z.to_nat (numPartitions m)) EmptyString;
                 next := replicate N 0%nat;
                 filled := 0 |} in
    tbl ← rounds (permutations m) (numPartitions m) (nodes m)
                 (S (Z.to_nat (numPartitions m))) st;
    Ok (set_lookup m tbl).

(** ** Construction *)

Definition NewMaglev (ns : list string) (p : Z) (H1 H2 : Hasher)
  : outcome (option Maglev * option string) :=
  if negb (ProbablyPrime p) then
    Ok (None, Some "number of partitions must be prime")
  else
    let m := {| permutations := None; lookup := []; nodes := sort_strings ns;
                numPartitions := p; h1 := H1; h2 := H2 |} in
    if (0 <? length ns)%nat then
      m1 ← generatePermutations m;
      m2 ← populateLookup m1;
      Ok (Some m2, None)
    else Ok (Some m, None).

(** ** Queries *)

Definition PartitionID (m : Maglev) (key : Z) : outcome Z :=
  r ← u64_rem key (numPartitions m);
  Ok (int_of_u64 r).

Definition Lookup (m : Maglev) (key : Z) : outcome string :=
  partitionID ← PartitionID m key;
  if partitionID <? 0 then Panic IndexOutOfRange
  else index (lookup m) (Z.to_nat partitionID).

Definition Contains (m : Maglev) (node : string) : outcome bool :=
  pos ← SearchStrings (nodes m) node;
  s ← index (nodes m) pos;
  if String.eqb s node then Ok true else Ok false.

Definition Size (m : Maglev) : Z := Z.of_nat (length (nodes m)).

Definition Partitions (m : Maglev) : Z := numPartitions m.

(** ** Membership changes

    [uint64(len(m.nodes))] converts a length, which is a non-negative
    [int], and so keeps its value. *)

Fixpoint Add_loop (m : Maglev) (args : list string) (n : Z) : outcome (Maglev * Z) :=
  match args with
  | [] => Ok (m, n)
  | node :: rest =>
      pos ← SearchStrings (nodes m) node;
      s ← index (nodes m) pos;
      if negb (String.eqb s node) then
        let m1 := set_nodes m (take pos (nodes m) ++ [node] ++ drop pos (nodes m)) in
        v ← generatePermutationsForNode m1 node;
        ps ← perm_store (permutations m1) node v;
        Add_loop (set_permutations m1 ps) rest (n + 1)
      else Add_loop m rest n
  end.

Definition Add (m : Maglev) (args : list string) : outcome (Maglev * Z * option string) :=
  '(m1, n) ← Add_loop m args 0;
  m2 ← populateLookup m1;
  if numPartitions m2 <? Z.of_nat (length (nodes m2)) then
    Ok (m2, n, Some "number of nodes exceed number of partitions")
  else Ok (m2, n, None).

Fixpoint Remove_loop (m : Maglev) (args : list string) (n : Z) : outcome (Maglev * Z) :=
  match args with
  | [] => Ok (m, n)
  | node :: rest =>
      pos ← SearchStrings (nodes m) node;
      s ← index (nodes m) pos;
      if String.eqb s node then
        let m1 := set_nodes m (take pos (nodes m) ++ drop (S pos) (nodes m)) in
        Remove_loop (set_permutations m1 (perm_delete (permutations m1) node)) rest (n + 1)
      else Remove_loop m rest n
  end.

Definition Remove (m : Maglev) (args : list string) : outcome (Maglev * Z * option string) :=
  '(m1, n) ← Remove_loop m args 0;
  if Z.of_nat (length (nodes m1)) =? 0 then
    Ok (m1, n, Some "there are no nodes left")
  else
    m2 ← populateLookup m1;
    Ok (m2, n, None).

(** ** Hashers with fixed, known outputs *)

Fixpoint table_hash (tbl : list (string * Z)) (d : Z) (s : string) : Z :=
  match tbl with
  | [] => d
  | (k, v) :: tbl' => if String.eqb k s then v else table_hash tbl' d s
  end.

Definition table_hasher (tbl : list (string * Z)) (d : Z) : Hasher :=
  {| hash_fun := table_hash tbl d |}.


(** A value to fall back on where a construction is known to succeed. *)
Definition no_maglev : Maglev :=
  {| permutations := None; lookup := []; nodes := []; numPartitions := 0;
     h1 := table_hasher [] 0; h2 := table_hasher [] 0 |}.

Definition built (r : outcome (option Maglev * option string)) : Maglev :=
  match r with
  | Ok (Some m, _) => m
  | _ => no_maglev
  end.

(** Three nodes on seven partitions: [a] prefers 3, 0, 4, 1, 5, 2, 6; [b]
    prefers 0, 2, 4, 6, 1, 3, 5; [c] prefers 3, 1, 6, 4, 2, 0, 5. *)
Definition hasher1 : Hasher := table_hasher [("a", 3); ("b", 0); ("c", 3)] 1.
Definition hasher2 : Hasher := table_hasher [("a", 3); ("b", 1); ("c", 4)] 2.

Definition abc7 : Maglev := built (NewMaglev ["c"; "a"; "b"] 7 hasher1 hasher2).

(** ** Notions the properties are stated with *)

(** [perm] lists every partition index of [[0, p)] exactly once. *)
Definition full_permutation (p : Z) (perm : list Z) : Prop := perm ≡ₚ seqZ 0 p.

(** Every node of the list has a cached permutation of the partitions. *)
Definition permutations_cached (m : Maglev) : Prop :=
  forall ID, ID ∈ nodes m -> full_permutation (numPartitions m) (perm_of (permutations m) ID).

(** Counting the elements of a list that pass a test. *)
Fixpoint count {A : Type} (f : A -> bool) (l : list A) : nat :=
  match l with
  | [] => 0%nat
  | x :: l' => ((if f x then 1 else 0) + count f l')%nat
  end.

(** The number of partitions a node owns in a table. *)
Definition owned (ID : string) (tbl : list string) : nat := count (String.eqb ID) tbl.

(** Slot [c] of the table is still unassigned. *)
Definition free (tbl : list string) (c : Z) : bool :=
  match tbl !! Z.to_nat c with
  | Some s => String.eqb s ""
  | None => false
  end.

(** The number of turns node [k] has had when round [r] (counted from 0)
    is about to give its turn to node [i]. *)
Definition turns (r i k : nat) : nat := if (k <? i)%nat then S r else r.

(** The state of the builder before the turn of node [i] in round [r]:
    [r * N + i] turns have been taken; every node owns as many partitions as
    it had turns, the empty identifier being counted with the slots nobody
    claimed yet; before its cursor a node left no free slot, except that a
    node called [""] left those it took itself. *)
Record fill_inv (ps : option (gmap string (list Z))) (p : Z) (ids : list string)
    (r i : nat) (st : fill) : Prop := {
  inv_table : length (table st) = Z.to_nat p;
  inv_next : length (next st) = length ids;
  inv_filled : filled st = Z.of_nat (r * length ids + i);
  inv_bound : (r * length ids + i <= Z.to_nat p)%nat;
  inv_cursor : forall k ID cur, ids !! k = Some ID -> next st !! k = Some cur ->
    (count (free (table st)) (take cur (perm_of ps ID))
       <= if String.eqb ID "" then turns r i k else 0)%nat;
  inv_owned : forall k ID, ids !! k = Some ID ->
    owned ID (table st) =
      (turns r i k + if String.eqb ID "" then Z.to_nat p - (r * length ids + i) else 0)%nat;
  inv_unclaimed : EmptyString ∉ ids ->
    owned "" (table st) = (Z.to_nat p - (r * length ids + i))%nat;
  inv_owner : forall c s, table st !! c = Some s -> s = EmptyString \/ s ∈ ids
}.

(** The state [populateLookup] starts from. *)
Definition fill_start (p : Z) (N : nat) : fill :=
  {| table := replicate (Z.to_nat p) EmptyString; next := replicate N 0%nat; filled := 0 |}.

(** The sequence the generator computes for a node, as a function of the
    partition count and the two hashes. *)
Definition permutation_for (m : Maglev) (node : string) : list Z :=
  (fun i => perm_entry (Hash (h1 m) node mod numPartitions m)
                       (Hash (h2 m) node mod (numPartitions m - 1) + 1)
                       (numPartitions m) i) <$> seqZ 0 (numPartitions m).

(** What construction and the membership changes keep: a prime partition
    count, a strictly increasing node list, and a permutation of the
    partitions cached for every node. *)
Record well_formed (m : Maglev) : Prop := {
  wf_prime : Z.prime (numPartitions m);
  wf_u64 : numPartitions m < two64;
  wf_sorted : strictly_sorted (nodes m);
  wf_cached : permutations_cached m
}.

(** Two nodes on seven partitions, one of them the empty identifier, which
    prefers 1, 4, 0, 3, 6, 2, 5. *)
Definition blank7 : Maglev := built (NewMaglev ["a"; ""] 7 hasher1 hasher2).

(** The smallest prime above [2^32], and a node whose stride is [p - 1]. *)
Definition prime33 : Z := 4294967311.

Definition wide : Maglev :=
  {| permutations := None; lookup := []; nodes := []; numPartitions := prime33;
     h1 := table_hasher [] 0; h2 := table_hasher [] (prime33 - 2) |}.

(** Two nodes on two partitions: an instance at capacity. *)
Definition bc2 : Maglev := built (NewMaglev ["b"; "c"] 2 hasher1 hasher2).

(** A prime above [2^63]; [prime63 - 1 = 2^2 * 3^3 * 359 * 7005787 * 33955849]. *)
Definition prime63 : Z := 9223372036854775837.

(** The cached permutations are the ones the generator computes from the
    hashes of the instance: nothing of the history of the instance is left
    in them. *)
Definition canonical (m : Maglev) : Prop :=
  forall ID, ID ∈ nodes m -> perm_of (permutations m) ID = permutation_for m ID.

(** An instance at rest between two calls: well formed, with the cached
    permutations the generator computes, and with the table [populateLookup]
    builds from them. *)
Definition settled (m : Maglev) : Prop :=
  well_formed m /\ canonical m /\ populateLookup m = Ok m.

(** ** The earlier revision of the listing

    Its [Add] and [Remove] have the loops of the later revision and rebuild
    the table unconditionally; they never return an error. *)
Module Earlier.

Definition Add (m : Maglev) (args : list string) : outcome (Maglev * Z * option string) :=
  '(m1, n) ← Add_loop m args 0;
  m2 ← populateLookup m1;
  Ok (m2, n, None).

Definition Remove (m : Maglev) (args : list string) : outcome (Maglev * Z * option string) :=
  '(m1, n) ← Remove_loop m args 0;
  m2 ← populateLookup m1;
  Ok (m2, n, None).

End Earlier.

(** * Properties of the embedding *)

Ltac conjs := repeat match goal with |- _ /\ _ => split end.

(** ** Outcomes *)

Lemma bind_Ok {A B : Type} (x : outcome A) (k : A -> outcome B) (b : B) :
  x ≫= k = Ok b <-> exists a, x = Ok a /\ k a = Ok b.
Proof.
  destruct x as [a|q|]; simpl; split.
  - intros H. exists a. auto.
  - intros (a' & Ha & Hk). congruence.
  - discriminate.
  - intros (a' & Ha & _). discriminate.
  - discriminate.
  - intros (a' & Ha & _). discriminate.
Qed.

Lemma index_Ok {A : Type} (s : list A) (i : nat) (a : A) :
  index s i = Ok a <-> s !! i = Some a.
Proof. unfold index. destruct (s !! i); split; congruence. Qed.

Lemma index_lt {A : Type} (s : list A) (i : nat) :
  (i < length s)%nat -> exists a, index s i = Ok a /\ s !! i = Some a.
Proof.
  intros H. destruct (lookup_lt_is_Some_2 s i H) as [a Ha].
  exists a. split; [apply index_Ok|]; exact Ha.
Qed.

Lemma index_ge {A : Type} (s : list A) (i : nat) :
  (length s <= i)%nat -> index s i = Panic IndexOutOfRange.
Proof. intros H. unfold index. rewrite lookup_ge_None_2; [reflexivity|exact H]. Qed.

(** ** The order on strings *)

Lemma ascii_compare_lt_trans (a b c : Ascii.ascii) :
  Ascii.compare a b = Lt -> Ascii.compare b c = Lt -> Ascii.compare a c = Lt.
Proof. unfold Ascii.compare. rewrite !N.compare_lt_iff. lia. Qed.

Lemma compare_lt_trans (s1 s2 s3 : string) :
  String.compare s1 s2 = Lt -> String.compare s2 s3 = Lt -> String.compare s1 s3 = Lt.
Proof.
  revert s2 s3. induction s1 as [|a s1 IH]; intros [|b s2] [|c s3]; simpl; try congruence.
  destruct (Ascii.compare a b) eqn:Hab; try discriminate.
  - apply Ascii.compare_eq_iff in Hab. subst b.
    destruct (Ascii.compare a c) eqn:Hac; try congruence. apply IH.
  - destruct (Ascii.compare b c) eqn:Hbc; try discriminate.
    + apply Ascii.compare_eq_iff in Hbc. subst c. rewrite Hab. reflexivity.
    + rewrite (ascii_compare_lt_trans _ _ _ Hab Hbc). reflexivity.
Qed.

Lemma str_lt_Lt (a b : string) : str_lt a b = true <-> String.compare a b = Lt.
Proof. unfold str_lt, String.ltb. destruct (String.compare a b); split; congruence. Qed.

Lemma str_lt_trans (a b c : string) :
  str_lt a b = true -> str_lt b c = true -> str_lt a c = true.
Proof. rewrite !str_lt_Lt. apply compare_lt_trans. Qed.

Lemma str_lt_irrefl (a : string) : str_lt a a = false.
Proof.
  destruct (str_lt a a) eqn:H; [|reflexivity].
  apply str_lt_Lt in H. pose proof (String.compare_antisym a a) as E.
  rewrite H in E. discriminate.
Qed.

Lemma str_lt_asym (a b : string) : str_lt a b = true -> str_lt b a = false.
Proof.
  intros H. destruct (str_lt b a) eqn:H'; [|reflexivity].
  rewrite <- (str_lt_irrefl a). symmetry. exact (str_lt_trans _ _ _ H H').
Qed.

Lemma str_trichotomy (a b : string) :
  str_lt a b = true \/ a = b \/ str_lt b a = true.
Proof.
  destruct (String.compare a b) eqn:H.
  - right. left. apply String.compare_eq_iff. exact H.
  - left. apply str_lt_Lt. exact H.
  - right. right. apply str_lt_Lt. rewrite String.compare_antisym, H. reflexivity.
Qed.

Lemma str_ge_trans (a b x : string) :
  str_lt b a = false -> str_ge a x = true -> str_ge b x = true.
Proof.
  unfold str_ge. rewrite !negb_true_iff. intros Hba Hax.
  destruct (str_lt b x) eqn:Hbx; [|reflexivity].
  destruct (str_trichotomy a x) as [H|[H|H]].
  - congruence.
  - subst x. congruence.
  - rewrite (str_lt_trans _ _ _ Hbx H) in Hba. discriminate.
Qed.

Lemma strictly_sorted_sorted (l : list string) : strictly_sorted l -> sorted l.
Proof.
  induction 1 as [|a l Hl IH Ha]; constructor; [exact IH|].
  eapply Forall_impl; [exact Ha|]. intros b Hb. apply str_lt_asym. exact Hb.
Qed.

Lemma sorted_lookup (l : list string) (i j : nat) (a b : string) :
  sorted l -> (i <= j)%nat -> l !! i = Some a -> l !! j = Some b -> str_le a b.
Proof.
  intros Hs. revert i j. induction Hs as [|x l Hl IH Hx]; intros i j Hij Hi Hj.
  - rewrite lookup_nil in Hi. discriminate.
  - destruct i as [|i].
    + simpl in Hi. injection Hi as ->. destruct j as [|j].
      * simpl in Hj. injection Hj as ->. apply str_lt_irrefl.
      * simpl in Hj. rewrite Forall_forall in Hx. apply Hx.
        eapply list_elem_of_lookup_2. exact Hj.
    + destruct j as [|j]; [lia|]. simpl in Hi, Hj. apply (IH i j); [lia|assumption..].
Qed.

(** ** Binary search *)

Section search.
Variable n : nat.
Variable f : nat -> outcome bool.
Variable g : nat -> bool.
Hypothesis f_g : forall h, (h < n)%nat -> f h = Ok (g h).
Hypothesis g_mono : forall k k', (k <= k')%nat -> (k' < n)%nat -> g k = true -> g k' = true.

Lemma search_loop_spec (fuel i j : nat) :
  (i <= j <= n)%nat -> (j - i <= fuel)%nat ->
  (forall k, (k < i)%nat -> g k = false) ->
  (forall k, (j <= k < n)%nat -> g k = true) ->
  exists r, search_loop f fuel i j = Ok r /\ (i <= r <= j)%nat /\
    (forall k, (k < r)%nat -> g k = false) /\
    (forall k, (r <= k < n)%nat -> g k = true).
Proof.
  revert i j. induction fuel as [|fuel IH]; intros i j Hij Hfuel Hlo Hhi.
  - assert (i = j) as -> by lia. exists j. simpl.
    rewrite Nat.ltb_irrefl. repeat split; auto; lia.
  - cbn [search_loop]. destruct (Nat.ltb_spec i j) as [Hlt|Hge].
    + pose proof (Nat.div_mod_eq (i + j) 2) as Hdm.
      pose proof (Nat.mod_upper_bound (i + j) 2 ltac:(lia)) as Hm.
      set (h := ((i + j) / 2)%nat) in *.
      assert (i <= h < j)%nat as Hh by lia.
      rewrite f_g by lia. simpl. destruct (g h) eqn:Hgh; simpl.
      * destruct (IH i h) as (r & Hr & Hir & Hr1 & Hr2); try lia; auto.
        { intros k Hk. apply (g_mono h k); [lia|lia|exact Hgh]. }
        exists r. repeat split; auto; lia.
      * destruct (IH (h + 1)%nat j) as (r & Hr & Hir & Hr1 & Hr2); try lia; auto.
        { intros k Hk. destruct (g k) eqn:Hgk; [|reflexivity].
          rewrite (g_mono k h) in Hgh; [discriminate|lia|lia|exact Hgk]. }
        exists r. repeat split; auto; lia.
    + assert (i = j) as -> by lia. exists j. repeat split; auto; lia.
Qed.

Lemma Search_spec :
  exists r, Search n f = Ok r /\ (r <= n)%nat /\
    (forall k, (k < r)%nat -> g k = false) /\
    (forall k, (r <= k < n)%nat -> g k = true).
Proof.
  destruct (search_loop_spec n 0 n) as (r & Hr & Hir & Hr1 & Hr2); try lia.
  exists r. repeat split; auto; lia.
Qed.
End search.

Lemma SearchStrings_sorted (a : list string) (x : string) :
  sorted a ->
  exists pos, SearchStrings a x = Ok pos /\ (pos <= length a)%nat /\
    (forall k s, (k < pos)%nat -> a !! k = Some s -> str_lt s x = true) /\
    (forall k s, (pos <= k)%nat -> a !! k = Some s -> str_lt s x = false).
Proof.
  intros Hs.
  pose (g := fun k => match a !! k with Some s => str_ge s x | None => true end).
  destruct (Search_spec (length a) (fun i => s ← index a i; Ok (str_ge s x)) g)
    as (r & Hr & Hle & Hlo & Hhi).
  - intros h Hh. destruct (index_lt a h Hh) as (s & Hi & Hl).
    rewrite Hi. unfold g. rewrite Hl. reflexivity.
  - intros k k' Hk Hk'. unfold g.
    destruct (lookup_lt_is_Some_2 a k ltac:(lia)) as [s Hks].
    destruct (lookup_lt_is_Some_2 a k' Hk') as [s' Hks'].
    rewrite Hks, Hks'. apply str_ge_trans.
    exact (sorted_lookup a k k' s s' Hs Hk Hks Hks').
  - exists r. split; [exact Hr|]. split; [exact Hle|]. split.
    + intros k s Hk Hks. specialize (Hlo k Hk). unfold g in Hlo. rewrite Hks in Hlo.
      unfold str_ge in Hlo. apply negb_false_iff in Hlo. exact Hlo.
    + intros k s Hk Hks. pose proof (lookup_lt_Some _ _ _ Hks) as Hlt.
      specialize (Hhi k (conj Hk Hlt)). unfold g in Hhi. rewrite Hks in Hhi.
      unfold str_ge in Hhi. apply negb_true_iff in Hhi. exact Hhi.
Qed.

(** A string that sorts after every element is searched for past the end,
    whatever the order of the slice. *)
Lemma SearchStrings_past_end (a : list string) (x : string) :
  Forall (fun s => str_lt s x = true) a -> SearchStrings a x = Ok (length a).
Proof.
  intros Hall.
  destruct (Search_spec (length a) (fun i => s ← index a i; Ok (str_ge s x)) (fun _ => false))
    as (r & Hr & Hle & _ & Hhi).
  - intros h Hh. destruct (index_lt a h Hh) as (s & Hi & Hl).
    rewrite Hi. simpl. f_equal. unfold str_ge. apply negb_false_iff.
    rewrite Forall_forall in Hall. apply Hall. eapply list_elem_of_lookup_2. exact Hl.
  - discriminate.
  - destruct (decide (r = length a)) as [->|Hne]; [exact Hr|].
    specialize (Hhi r ltac:(lia)). discriminate.
Qed.

Lemma probe_past_end (a : list string) (x : string) :
  Forall (fun s => str_lt s x = true) a ->
  (pos ← SearchStrings a x; index a pos) = Panic IndexOutOfRange.
Proof.
  intros Hall. rewrite (SearchStrings_past_end a x Hall). simpl.
  apply index_ge. lia.
Qed.

(** ** Membership probes *)

(** C9. A node identifier that sorts strictly after every current member
    (any identifier at all when there is no member) is probed at
    [nodes[len(nodes)]]: [Contains] panics with an index out of range instead
    of returning [false], [Add] panics instead of inserting the identifier at
    the end, and [Remove] panics instead of reporting it absent. *)
Theorem probe_after_all_members_panics (m : Maglev) (node : string) (rest : list string) :
  Forall (fun s => str_lt s node = true) (nodes m) ->
  Contains m node = Panic IndexOutOfRange /\
  Add m (node :: rest) = Panic IndexOutOfRange /\
  Remove m (node :: rest) = Panic IndexOutOfRange.
Proof.
  intros Hall. pose proof (probe_past_end (nodes m) node Hall) as Hp.
  rewrite (SearchStrings_past_end _ _ Hall) in Hp. simpl in Hp.
  unfold Contains, Add, Remove. cbn [Add_loop Remove_loop].
  rewrite (SearchStrings_past_end _ _ Hall). simpl. rewrite Hp. auto.
Qed.

Lemma probe_empty_membership_panics (m : Maglev) (node : string) (rest : list string) :
  nodes m = [] ->
  Contains m node = Panic IndexOutOfRange /\
  Add m (node :: rest) = Panic IndexOutOfRange /\
  Remove m (node :: rest) = Panic IndexOutOfRange.
Proof.
  intros H. assert (Forall (fun s => str_lt s node = true) (nodes m)) as Hall.
  { rewrite H. constructor. }
  unfold Contains, Add, Remove. cbn [Add_loop Remove_loop].
  rewrite (SearchStrings_past_end _ _ Hall), H. auto.
Qed.

(** When some member does not sort before the probed identifier, [Contains]
    decides membership in a sorted node list. *)
Lemma Contains_in_range (m : Maglev) (node : string) :
  sorted (nodes m) ->
  Exists (fun s => str_lt s node = false) (nodes m) ->
  Contains m node = Ok (bool_decide (node ∈ nodes m)).
Proof.
  intros Hs Hex. unfold Contains.
  destruct (SearchStrings_sorted (nodes m) node Hs) as (pos & Hpos & Hle & Hlo & Hhi).
  rewrite Hpos. simpl.
  apply Exists_exists in Hex as (s0 & Hin & Hs0).
  apply list_elem_of_lookup_1 in Hin as [k Hk].
  assert (pos <= k)%nat as Hpk.
  { destruct (Nat.le_gt_cases pos k) as [H|H]; [exact H|].
    rewrite (Hlo k s0 H Hk) in Hs0. discriminate. }
  pose proof (lookup_lt_Some _ _ _ Hk) as Hklt.
  destruct (index_lt (nodes m) pos ltac:(lia)) as (s & Hi & Hl).
  rewrite Hi. simpl. destruct (String.eqb_spec s node) as [->|Hne].
  - rewrite bool_decide_eq_true_2; [reflexivity|]. eapply list_elem_of_lookup_2. exact Hl.
  - rewrite bool_decide_eq_false_2; [reflexivity|].
    intros Hin'. apply list_elem_of_lookup_1 in Hin' as [j Hj].
    destruct (Nat.le_gt_cases pos j) as [H|H].
    + pose proof (sorted_lookup _ _ _ _ _ Hs H Hl Hj) as Hle'. unfold str_le in Hle'.
      pose proof (Hhi pos s (Nat.le_refl _) Hl) as Hge.
      destruct (str_trichotomy s node) as [H1|[H1|H1]]; congruence.
    + pose proof (Hlo j node H Hj) as Hlt. rewrite str_lt_irrefl in Hlt. discriminate.
Qed.

(** C5 fails on the code: the instance built from [a], [b], [c] does not
    contain [d], and [Contains] panics instead of answering [false]. *)
Lemma Contains_absent_node_panics :
  nodes abc7 = ["a"; "b"; "c"] /\ Contains abc7 "d" = Panic IndexOutOfRange.
Proof. split; vm_compute; reflexivity. Qed.

(** ** Partition of a key *)

Lemma int_of_u64_small (x : Z) : 0 <= x < 2 ^ 63 -> int_of_u64 x = x.
Proof. intros H. unfold int_of_u64. destruct (Z.ltb_spec x (2 ^ 63)); lia. Qed.

(** Up to [2^63] partitions every remainder fits Go's [int], and
    [PartitionID key] is [key mod numPartitions], an integer of
    [[0, numPartitions)]. *)
Theorem PartitionID_mod (m : Maglev) (key : Z) :
  0 < numPartitions m <= 2 ^ 63 ->
  PartitionID m key = Ok (key mod numPartitions m) /\
  0 <= key mod numPartitions m < numPartitions m.
Proof.
  intros Hp. pose proof (Z.mod_pos_bound key (numPartitions m) ltac:(lia)) as Hb.
  split; [|exact Hb]. unfold PartitionID, u64_rem.
  destruct (Z.eqb_spec (numPartitions m) 0) as [E|_]; [lia|]. simpl.
  rewrite int_of_u64_small by lia. reflexivity.
Qed.

(** ** Removal *)




(** ** Primality by trial division *)

Lemma no_divisor_from_sound (p : Z) (fuel : nat) :
  forall d, 2 <= d -> Z.sqrt p < d + Z.of_nat fuel ->
  no_divisor_from fuel d p = true ->
  forall n, d <= n -> n * n <= p -> p mod n <> 0.
Proof.
  induction fuel as [|fuel IH]; intros d Hd Hs Hno n Hn Hnn.
  - assert (0 <= p) as Hp by nia. pose proof (Z.sqrt_spec p Hp) as Hsq.
    cbv zeta in Hsq. unfold Z.succ in Hsq.
    assert ((Z.sqrt p + 1) * (Z.sqrt p + 1) <= n * n) by (apply Z.mul_le_mono_nonneg; lia).
    lia.
  - cbn [no_divisor_from] in Hno.
    destruct (Z.ltb_spec p (d * d)) as [Hlt|Hge]; [nia|].
    destruct (Z.eqb_spec (p mod d) 0) as [E|E]; [discriminate|].
    destruct (Z.eq_dec n d) as [->|Hne]; [exact E|].
    apply (IH (d + 1)); try lia. exact Hno.
Qed.

Lemma no_divisor_from_complete (p : Z) (fuel : nat) :
  Z.prime p -> forall d, 2 <= d -> no_divisor_from fuel d p = true.
Proof.
  intros [Hp1 Hpr]. induction fuel as [|fuel IH]; intros d Hd; [reflexivity|].
  cbn [no_divisor_from].
  destruct (Z.ltb_spec p (d * d)) as [Hlt|Hge]; [reflexivity|].
  destruct (Z.eqb_spec (p mod d) 0) as [E|E].
  - exfalso. apply (Hpr d); [nia|]. apply Z.mod_divide; [lia|exact E].
  - apply IH. lia.
Qed.

Lemma ProbablyPrime_spec (p : Z) : ProbablyPrime p = true <-> Z.prime p.
Proof.
  unfold ProbablyPrime. rewrite andb_true_iff, Z.ltb_lt. split.
  - intros [Hp Hno]. split; [exact Hp|]. intros n Hn [k Hk].
    assert (0 < k) as Hk0 by nia.
    pose proof (no_divisor_from_sound p (Z.to_nat (Z.sqrt p)) 2 ltac:(lia) ltac:(lia) Hno) as Hnd.
    destruct (Z.le_gt_cases (n * n) p) as [Hle|Hgt].
    + apply (Hnd n); [lia|exact Hle|]. subst p. apply Z.mod_mul. lia.
    + assert (1 < k) by nia. apply (Hnd k); [lia|nia|].
      subst p. rewrite Z.mul_comm. apply Z.mod_mul. lia.
  - intros Hpr. split; [apply Hpr|]. apply no_divisor_from_complete; [exact Hpr|lia].
Qed.

(** ** The permutation generator *)

Lemma u64_small (x : Z) : 0 <= x < two64 -> u64 x = x.
Proof. intros H. apply Z.mod_small. exact H. Qed.

Lemma u64_range (x : Z) : 0 <= u64 x < two64.
Proof. apply Z.mod_pos_bound. reflexivity. Qed.

(** What the generator returns, with its offset and stride. *)
Lemma generatePermutationsForNode_Ok (m : Maglev) (node : string) :
  2 <= numPartitions m < two64 ->
  exists offset skip,
    0 <= offset < numPartitions m /\ 1 <= skip < numPartitions m /\
    offset = Hash (h1 m) node mod numPartitions m /\
    skip = Hash (h2 m) node mod (numPartitions m - 1) + 1 /\
    generatePermutationsForNode m node =
      Ok ((fun i => perm_entry offset skip (numPartitions m) i) <$> seqZ 0 (numPartitions m)).
Proof.
  intros Hp. set (p := numPartitions m) in *.
  pose proof (Z.mod_pos_bound (Hash (h1 m) node) p ltac:(lia)) as Ho.
  pose proof (Z.mod_pos_bound (Hash (h2 m) node) (p - 1) ltac:(lia)) as Hr.
  exists (Hash (h1 m) node mod p), (Hash (h2 m) node mod (p - 1) + 1).
  split; [exact Ho|]. split; [lia|]. split; [reflexivity|]. split; [reflexivity|].
  unfold generatePermutationsForNode, u64_rem. fold p.
  destruct (Z.eqb_spec p 0) as [E|_]; [lia|]. simpl.
  rewrite (u64_small (p - 1)) by (unfold two64 in *; lia).
  destruct (Z.eqb_spec (p - 1) 0) as [E|_]; [lia|]. simpl.
  rewrite (u64_small (_ + 1)) by (unfold two64 in *; lia). reflexivity.
Qed.

Lemma perm_entry_exact (offset skip p i : Z) :
  0 <= offset < p -> 1 <= skip < p -> 0 <= i < p -> p < 2 ^ 32 ->
  perm_entry offset skip p i = (offset + i * skip) mod p.
Proof.
  intros Ho Hs Hi Hp. unfold perm_entry. rewrite u64_small; [reflexivity|].
  unfold two64. split; [nia|].
  assert (i * skip <= (p - 1) * (p - 1)) by nia.
  assert (p * p <= 2 ^ 32 * 2 ^ 32) by nia.
  change (2 ^ 32 * 2 ^ 32) with (2 ^ 64) in *. nia.
Qed.

Lemma stride_injective (offset skip p i j : Z) :
  Z.prime p -> 1 <= skip < p -> 0 <= i < p -> 0 <= j < p ->
  (offset + i * skip) mod p = (offset + j * skip) mod p -> i = j.
Proof.
  intros Hpr Hs Hi Hj E.
  assert ((p | (i - j) * skip)) as Hd.
  { apply Z.mod_divide; [lia|].
    replace ((i - j) * skip) with ((offset + i * skip) - (offset + j * skip)) by ring.
    rewrite Zminus_mod, E, Z.sub_diag. apply Z.mod_0_l. lia. }
  apply Z.divide_prime_mul in Hd; [|exact Hpr].
  destruct Hd as [[k Hk]|[k Hk]].
  - assert (k = 0) by nia. lia.
  - assert (0 < k) by nia. nia.
Qed.

(** Without overflow in [offset + i*skip], that is for a prime below [2^32],
    the generated sequence is a permutation of the partitions. *)
Lemma generated_full_permutation (m : Maglev) (node : string) :
  Z.prime (numPartitions m) -> numPartitions m < 2 ^ 32 ->
  exists perm, generatePermutationsForNode m node = Ok perm /\
    full_permutation (numPartitions m) perm.
Proof.
  intros Hpr Hlt. pose proof (Z.prime_ge_2 _ Hpr) as H2.
  destruct (generatePermutationsForNode_Ok m node) as (offset & skip & Ho & Hs & _ & _ & E).
  { unfold two64. lia. }
  set (p := numPartitions m) in *. eexists. split; [exact E|].
  unfold full_permutation. apply submseteq_length_Permutation.
  - apply NoDup_submseteq.
    + apply NoDup_fmap_2_strong; [|apply NoDup_seqZ].
      intros i j Hi Hj Hij. apply elem_of_seqZ in Hi, Hj.
      rewrite !perm_entry_exact in Hij by lia.
      apply (stride_injective offset skip p); try lia; assumption.
    + intros x Hx. apply list_elem_of_fmap in Hx as (i & -> & Hi).
      apply elem_of_seqZ in Hi. apply elem_of_seqZ.
      unfold perm_entry. pose proof (Z.mod_pos_bound (u64 (offset + i * skip)) p). lia.
  - rewrite length_fmap. reflexivity.
Qed.

Lemma generated_entry (m : Maglev) (node : string) (perm : list Z) (i : Z) :
  2 <= numPartitions m < two64 ->
  generatePermutationsForNode m node = Ok perm ->
  0 <= i < numPartitions m ->
  perm !! Z.to_nat i =
    Some (perm_entry (Hash (h1 m) node mod numPartitions m)
                     (Hash (h2 m) node mod (numPartitions m - 1) + 1)
                     (numPartitions m) i).
Proof.
  intros Hp E Hi.
  destruct (generatePermutationsForNode_Ok m node Hp) as (offset & skip & _ & _ & -> & -> & E').
  rewrite E' in E. injection E as <-.
  rewrite list_lookup_fmap, lookup_seqZ_lt by lia. simpl. do 2 f_equal. lia.
Qed.

(** C2 fails on the code above [2^32]. On the prime [2^32 + 15], for a node
    hashed to offset 0 and stride [p - 1], the product [i * skip] wraps
    around [2^64] at [i = 2^32 - 13]: positions 197 and [2^32 - 13] of the
    generated sequence both hold partition 4294967114, so the sequence is
    not a permutation of the partitions. *)
Theorem generated_sequence_repeats_above_2_32 :
  Z.prime (numPartitions wide) /\
  exists perm, generatePermutationsForNode wide "x" = Ok perm /\
    perm !! Z.to_nat 197 = Some 4294967114 /\
    perm !! Z.to_nat 4294967283 = Some 4294967114 /\
    ~ NoDup perm /\ ~ full_permutation (numPartitions wide) perm.
Proof.
  assert (2 <= numPartitions wide < two64) as Hp by (vm_compute; split; congruence).
  split; [apply ProbablyPrime_spec; vm_compute; reflexivity|].
  destruct (generatePermutationsForNode_Ok wide "x" Hp) as (o & s & _ & _ & _ & _ & E).
  revert E. generalize ((fun i => perm_entry o s (numPartitions wide) i) <$> seqZ 0 (numPartitions wide)).
  intros perm E. exists perm. split; [exact E|].
  pose proof (generated_entry wide "x" perm 197 Hp E ltac:(vm_compute; split; congruence)) as H1.
  pose proof (generated_entry wide "x" perm 4294967283 Hp E ltac:(vm_compute; split; congruence)) as H2.
  change (perm !! Z.to_nat 197 = Some 4294967114) in H1.
  change (perm !! Z.to_nat 4294967283 = Some 4294967114) in H2.
  assert (forall l : list Z,
    l !! Z.to_nat 197 = Some 4294967114 ->
    l !! Z.to_nat 4294967283 = Some 4294967114 -> ~ NoDup l) as Hdup.
  { intros l Ha Hb Hnd. rewrite NoDup_alt in Hnd.
    specialize (Hnd _ _ _ Ha Hb). lia. }
  split; [exact H1|]. split; [exact H2|]. split; [exact (Hdup _ H1 H2)|].
  intros Hfull. apply (Hdup _ H1 H2). unfold full_permutation in Hfull.
  rewrite Hfull. apply NoDup_seqZ.
Qed.

(** ** Counting *)

Section counting.
Context {A : Type}.
Implicit Types (f g : A -> bool) (l k : list A).

Lemma count_app f l k : count f (l ++ k) = (count f l + count f k)%nat.
Proof. induction l as [|x l IH]; simpl; [reflexivity|]. rewrite IH. lia. Qed.

Lemma count_Permutation f l k : l ≡ₚ k -> count f l = count f k.
Proof. induction 1; simpl; lia. Qed.

Lemma count_le_length f l : (count f l <= length l)%nat.
Proof. induction l as [|x l IH]; simpl; [lia|]. destruct (f x); lia. Qed.

Lemma count_mono f g l :
  (forall x, x ∈ l -> f x = true -> g x = true) -> (count f l <= count g l)%nat.
Proof.
  induction l as [|x l IH]; intros H; simpl; [lia|].
  assert (count f l <= count g l)%nat as Hl.
  { apply IH. intros y Hy. apply H. right. exact Hy. }
  destruct (f x) eqn:E; [rewrite (H x (list_elem_of_here x l) E)|destruct (g x)]; lia.
Qed.

Lemma count_zero f l : (forall x, x ∈ l -> f x = false) -> count f l = 0%nat.
Proof.
  induction l as [|x l IH]; intros H; simpl; [reflexivity|].
  rewrite (H x (list_elem_of_here x l)), IH; [reflexivity|].
  intros y Hy. apply H. right. exact Hy.
Qed.

Lemma count_all f l : count f l = length l -> forall x, x ∈ l -> f x = true.
Proof.
  induction l as [|x l IH]; intros H y Hy; [inversion Hy|]. simpl in H.
  pose proof (count_le_length f l) as Hle.
  destruct (f x) eqn:E; [|lia].
  apply elem_of_cons in Hy as [->|Hy]; [exact E|]. apply IH; [lia|exact Hy].
Qed.

Lemma count_pos f l :
  (0 < count f l)%nat -> exists j x, l !! j = Some x /\ f x = true.
Proof.
  induction l as [|x l IH]; simpl; [lia|]. intros H.
  destruct (f x) eqn:E.
  - exists 0%nat, x. auto.
  - destruct (IH ltac:(lia)) as (j & y & Hj & Hy). exists (S j), y. auto.
Qed.

Lemma count_ext f g l : (forall x, x ∈ l -> f x = g x) -> count f l = count g l.
Proof.
  induction l as [|x l IH]; intros H; simpl; [reflexivity|].
  rewrite (H x (list_elem_of_here x l)), IH; [reflexivity|].
  intros y Hy. apply H. right. exact Hy.
Qed.

Lemma count_take_drop f l n :
  count f l = (count f (take n l) + count f (drop n l))%nat.
Proof. rewrite <- count_app, take_drop. reflexivity. Qed.

Lemma count_replicate f x n :
  count f (replicate n x) = if f x then n else 0%nat.
Proof. induction n as [|n IH]; simpl; [destruct (f x); reflexivity|]. rewrite IH. destruct (f x); lia. Qed.

(** Overwriting one element changes the count by what the old and the new
    element contribute. *)
Lemma count_insert f l j old new :
  l !! j = Some old ->
  (count f (<[j := new]> l) + (if f old then 1 else 0) =
   count f l + (if f new then 1 else 0))%nat.
Proof.
  revert j. induction l as [|x l IH]; intros [|j] H; simpl in *; try discriminate.
  - injection H as ->. lia.
  - specialize (IH j H). lia.
Qed.
End counting.

(** ** Free slots of a table *)

Lemma free_Some (tbl : list string) (c : Z) :
  free tbl c = true <-> tbl !! Z.to_nat c = Some EmptyString.
Proof.
  unfold free. destruct (tbl !! Z.to_nat c) as [s|]; [|split; discriminate].
  rewrite String.eqb_eq. split; congruence.
Qed.

(** The free slots of a table are its empty entries. *)
Lemma count_free_table (tbl : list string) :
  count (free tbl) (seqZ 0 (Z.of_nat (length tbl))) = owned "" tbl.
Proof.
  unfold owned. induction tbl as [|x tbl IH] using rev_ind; [reflexivity|].
  rewrite length_app, Nat.add_1_r, seqZ_S, !count_app, <- IH. simpl. f_equal.
  - apply count_ext. intros c Hc. apply elem_of_seqZ in Hc.
    unfold free. rewrite lookup_app_l by lia. reflexivity.
  - unfold free. rewrite Z.add_0_l, Nat2Z.id, lookup_app_r, Nat.sub_diag by lia.
    simpl. rewrite String.eqb_sym. reflexivity.
Qed.

Lemma free_insert_mono (tbl : list string) (j : nat) (ID : string) (c : Z) :
  tbl !! j = Some EmptyString -> free (<[j := ID]> tbl) c = true -> free tbl c = true.
Proof.
  intros Hj. rewrite !free_Some. destruct (decide (j = Z.to_nat c)) as [<-|Hne].
  - intros _. exact Hj.
  - rewrite list_lookup_insert_ne by exact Hne. auto.
Qed.

Lemma free_insert_taken (tbl : list string) (ID : string) (c : Z) :
  (Z.to_nat c < length tbl)%nat -> ID <> EmptyString ->
  free (<[Z.to_nat c := ID]> tbl) c = false.
Proof.
  intros Hc HID. unfold free. rewrite list_lookup_insert_eq by exact Hc.
  apply String.eqb_neq. exact HID.
Qed.

(** ** The inner loop *)

(** From a cursor with a free slot at or after it, the inner loop stops at
    the first free slot, having passed taken slots only. *)
Lemma skip_taken_spec (perm : list Z) (tbl : list string) (j : nat) (cj : Z) :
  (forall c, c ∈ perm -> (Z.to_nat c < length tbl)%nat) ->
  perm !! j = Some cj -> free tbl cj = true ->
  forall fuel cur c, (cur <= j)%nat -> (j - cur <= fuel)%nat -> perm !! cur = Some c ->
  exists cur' c', skip_taken perm tbl fuel cur c = Ok (cur', c') /\
    (cur <= cur' <= j)%nat /\ perm !! cur' = Some c' /\ free tbl c' = true /\
    count (free tbl) (take cur' perm) = count (free tbl) (take cur perm).
Proof.
  intros Hin Hj Hfree fuel. induction fuel as [|fuel IH]; intros cur c Hle Hfuel Hcur.
  - assert (cur = j) as -> by lia. assert (c = cj) as -> by congruence.
    exists j, cj. simpl.
    destruct (index_lt tbl (Z.to_nat cj)) as (s & -> & Hs).
    { apply Hin. eapply list_elem_of_lookup_2. exact Hj. }
    simpl. apply free_Some in Hfree. rewrite Hs in Hfree. injection Hfree as ->.
    simpl. repeat split; auto. apply free_Some. exact Hs.
  - cbn [skip_taken].
    destruct (index_lt tbl (Z.to_nat c)) as (s & -> & Hs).
    { apply Hin. eapply list_elem_of_lookup_2. exact Hcur. }
    simpl. destruct (String.eqb_spec s "") as [->|Hne]; simpl.
    + exists cur, c. repeat split; auto; try lia. apply free_Some. exact Hs.
    + assert (cur <> j) as Hcj.
      { intros ->. assert (c = cj) as -> by congruence.
        apply free_Some in Hfree. congruence. }
      destruct (lookup_lt_is_Some_2 perm (S cur)) as [c1 Hc1].
      { pose proof (lookup_lt_Some _ _ _ Hj). lia. }
      rewrite (proj2 (index_Ok perm (S cur) c1) Hc1). simpl.
      destruct (IH (S cur) c1) as (cur' & c' & E & Hb & Hp & Hf & Hcnt); try lia; auto.
      exists cur', c'. split; [exact E|]. split; [lia|]. split; [exact Hp|]. split; [exact Hf|].
      rewrite Hcnt, (take_S_r _ _ _ Hcur), count_app. simpl.
      assert (free tbl c = false) as ->; [|lia].
      unfold free. rewrite Hs. apply String.eqb_neq. exact Hne.
Qed.

(** ** One turn of the builder *)

Lemma turns_self (r i : nat) : turns r i i = r /\ turns r (S i) i = S r.
Proof.
  unfold turns. rewrite Nat.ltb_irrefl.
  destruct (Nat.ltb_spec i (S i)); [auto|lia].
Qed.

Lemma turns_other (r i k : nat) : k <> i -> turns r (S i) k = turns r i k.
Proof.
  intros H. unfold turns.
  destruct (Nat.ltb_spec k (S i)), (Nat.ltb_spec k i); auto; lia.
Qed.

Lemma turns_next_round (r N k : nat) : (k < N)%nat -> turns r N k = turns (S r) 0 k.
Proof. intros H. unfold turns. destruct (Nat.ltb_spec k N); [reflexivity|lia]. Qed.

Section builder.
Variable ps : option (gmap string (list Z)).
Variable p : Z.
Variable ids : list string.
Hypothesis p_range : 0 < p < two64.
Hypothesis perms_full : forall ID, ID ∈ ids -> full_permutation p (perm_of ps ID).
Hypothesis ids_distinct : NoDup ids.

Let N := length ids.
Let P := Z.to_nat p.

Lemma perm_length (ID : string) : ID ∈ ids -> length (perm_of ps ID) = P.
Proof.
  intros H. rewrite (Permutation_length (perms_full ID H)). apply length_seqZ.
Qed.

Lemma perm_in_range (ID : string) (c : Z) :
  ID ∈ ids -> c ∈ perm_of ps ID -> (Z.to_nat c < P)%nat.
Proof.
  intros H Hc. rewrite (perms_full ID H) in Hc. apply elem_of_seqZ in Hc.
  unfold P. lia.
Qed.

(** While turns remain, some slot of the table is free beyond what the
    node called [""] may have left behind its cursor. *)
Lemma unclaimed_remain (r i k : nat) (ID : string) (st : fill) :
  fill_inv ps p ids r i st -> (r * N + i < P)%nat -> ids !! k = Some ID ->
  ((if String.eqb ID "" then turns r i k else 0) < owned "" (table st))%nat.
Proof.
  intros Hinv Hrun Hk. destruct (String.eqb_spec ID "") as [->|Hne].
  - rewrite (inv_owned _ _ _ _ _ _ Hinv k "" Hk). simpl. fold N P. lia.
  - destruct (decide (EmptyString ∈ ids)) as [Hin|Hnin].
    + apply list_elem_of_lookup_1 in Hin as [k0 Hk0].
      rewrite (inv_owned _ _ _ _ _ _ Hinv k0 "" Hk0). simpl. fold N P. lia.
    + rewrite (inv_unclaimed _ _ _ _ _ _ Hinv Hnin). fold N P. lia.
Qed.

Lemma claim_spec (r i : nat) (ID : string) (st : fill) :
  fill_inv ps p ids r i st -> ids !! i = Some ID -> (r * N + i < P)%nat ->
  exists st', fill_inv ps p ids r (S i) st' /\
    claim ps p i ID st =
      Ok (if filled st' =? p then inl (table st') else inr st').
Proof.
  intros Hinv Hi Hrun.
  assert (ID ∈ ids) as HID by (eapply list_elem_of_lookup_2; exact Hi).
  pose proof (lookup_lt_Some _ _ _ Hi) as HiN. fold N in HiN.
  pose proof (inv_table _ _ _ _ _ _ Hinv) as Hlen. fold P in Hlen.
  destruct (lookup_lt_is_Some_2 (next st) i) as [cur Hcur].
  { rewrite (inv_next _ _ _ _ _ _ Hinv). exact HiN. }
  set (perm := perm_of ps ID). set (tbl := table st) in *.
  (* a free slot at or after the cursor *)
  assert (count (free tbl) perm = owned "" tbl) as Hall.
  { rewrite (count_Permutation _ _ _ (perms_full ID HID)).
    rewrite <- count_free_table, Hlen. unfold P. rewrite Z2Nat.id by lia. reflexivity. }
  pose proof (inv_cursor _ _ _ _ _ _ Hinv i ID cur Hi Hcur) as Hbehind. fold perm tbl in Hbehind.
  pose proof (unclaimed_remain r i i ID st Hinv Hrun Hi) as Hrem. fold tbl in Hrem.
  rewrite (count_take_drop _ perm cur) in Hall.
  destruct (count_pos (free tbl) (drop cur perm) ltac:(lia)) as (j0 & cj & Hj0 & Hcj).
  rewrite lookup_drop in Hj0.
  destruct (lookup_lt_is_Some_2 perm cur) as [c Hc].
  { pose proof (lookup_lt_Some _ _ _ Hj0). lia. }
  destruct (skip_taken_spec perm tbl (cur + j0) cj) with (fuel := length perm) (cur := cur) (c := c)
    as (cur' & c' & Eskip & Hb & Hc' & Hfree & Hcnt); auto; try lia.
  { intros x Hx. rewrite Hlen. apply (perm_in_range ID); assumption. }
  { pose proof (lookup_lt_Some _ _ _ Hj0). lia. }
  assert (Z.to_nat c' < length tbl)%nat as Hc'lt.
  { rewrite Hlen. apply (perm_in_range ID); [exact HID|].
    eapply list_elem_of_lookup_2. exact Hc'. }
  apply free_Some in Hfree.
  assert (u64 (filled st + 1) = Z.of_nat (r * N + S i)) as Hn.
  { rewrite (inv_filled _ _ _ _ _ _ Hinv). fold N.
    rewrite u64_small; [lia|]. unfold P in Hrun. lia. }
  exists {| table := <[Z.to_nat c' := ID]> tbl; next := <[i := S cur']> (next st);
            filled := u64 (filled st + 1) |}.
  split.
  - constructor; simpl.
    + rewrite length_insert. exact Hlen.
    + rewrite length_insert. apply (inv_next _ _ _ _ _ _ Hinv).
    + exact Hn.
    + fold N P. lia.
    + intros k IDk curk Hk Hnk.
      destruct (decide (k = i)) as [->|Hki].
      * assert (IDk = ID) as -> by congruence.
        rewrite list_lookup_insert_eq in Hnk by (rewrite (inv_next _ _ _ _ _ _ Hinv); exact HiN).
        injection Hnk as <-. fold perm.
        rewrite (take_S_r _ _ _ Hc'), count_app. simpl.
        assert (count (free (<[Z.to_nat c' := ID]> tbl)) (take cur' perm)
                <= count (free tbl) (take cur' perm))%nat as Hm.
        { apply count_mono. intros x _. apply free_insert_mono. exact Hfree. }
        destruct (turns_self r i) as [T1 T2]. rewrite T1 in Hbehind. rewrite T2.
        destruct (String.eqb_spec ID "") as [->|Hne].
        -- destruct (free _ c'); lia.
        -- rewrite free_insert_taken by assumption. lia.
      * rewrite list_lookup_insert_ne in Hnk by congruence.
        rewrite (turns_other r i k Hki).
        etransitivity; [|exact (inv_cursor _ _ _ _ _ _ Hinv k IDk curk Hk Hnk)].
        apply count_mono. intros x _. apply free_insert_mono. exact Hfree.
    + intros k IDk Hk. fold N P.
      pose proof (count_insert (String.eqb IDk) tbl (Z.to_nat c') "" ID Hfree) as Hins.
      pose proof (inv_owned _ _ _ _ _ _ Hinv k IDk Hk) as Ho. fold N P tbl in Ho.
      unfold owned in *. destruct (decide (k = i)) as [->|Hki].
      * assert (IDk = ID) as -> by congruence.
        destruct (turns_self r i) as [T1 T2]. rewrite T1 in Ho. rewrite T2.
        rewrite String.eqb_refl in Hins. destruct (String.eqb ID ""); lia.
      * rewrite (turns_other r i k Hki).
        assert (String.eqb IDk ID = false) as E.
        { apply String.eqb_neq. intros ->. apply Hki.
          exact (NoDup_lookup _ _ _ _ ids_distinct Hk Hi). }
        rewrite E in Hins. destruct (String.eqb IDk ""); lia.
    + intros Hnin. fold N P.
      pose proof (count_insert (String.eqb "") tbl (Z.to_nat c') "" ID Hfree) as Hins.
      pose proof (inv_unclaimed _ _ _ _ _ _ Hinv Hnin) as Ho. fold N P tbl in Ho.
      unfold owned in *.
      assert (String.eqb "" ID = false) as E.
      { apply String.eqb_neq. intros <-. exact (Hnin HID). }
      rewrite E, String.eqb_refl in Hins. lia.
    + intros x s Hx. destruct (decide (x = Z.to_nat c')) as [->|Hne].
      * rewrite list_lookup_insert_eq in Hx by exact Hc'lt. injection Hx as <-. auto.
      * rewrite list_lookup_insert_ne in Hx by congruence.
        exact (inv_owner _ _ _ _ _ _ Hinv x s Hx).
  - unfold claim. fold perm tbl.
    rewrite (proj2 (index_Ok _ _ _) Hcur). simpl.
    rewrite (proj2 (index_Ok _ _ _) Hc). simpl.
    rewrite Eskip. simpl. destruct (u64 (filled st + 1) =? p); reflexivity.
Qed.

Lemma fill_inv_next_round (r : nat) (st : fill) :
  fill_inv ps p ids r N st -> fill_inv ps p ids (S r) 0 st.
Proof.
  intros [H1 H2 H3 H4 H5 H6 H7 H8]. fold N in H3, H4, H6, H7.
  constructor; fold N; auto.
  - rewrite H3. f_equal. lia.
  - lia.
  - intros k ID cur Hk Hn.
    rewrite <- (turns_next_round r N k (lookup_lt_Some _ _ _ Hk)).
    apply H5; assumption.
  - intros k ID Hk.
    rewrite <- (turns_next_round r N k (lookup_lt_Some _ _ _ Hk)).
    rewrite (H6 k ID Hk). replace (S r * N + 0)%nat with (r * N + N)%nat by lia. reflexivity.
  - intros Hnin. rewrite (H7 Hnin). f_equal. lia.
Qed.

(** A round either fills the last slot and returns, or gives every node
    one turn. *)
Lemma round_spec (r : nat) (rest : list string) :
  forall i st, drop i ids = rest -> (i <= N)%nat ->
  fill_inv ps p ids r i st -> (r * N + i < P)%nat ->
  (exists i' st', (i < i' <= N)%nat /\ fill_inv ps p ids r i' st' /\
     (r * N + i' = P)%nat /\ round ps p i rest st = Ok (inl (table st'))) \/
  (exists st', fill_inv ps p ids r N st' /\ (r * N + N < P)%nat /\
     round ps p i rest st = Ok (inr st')).
Proof.
  induction rest as [|ID rest IH]; intros i st Hdrop HiN Hinv Hrun.
  - assert (i = N) as ->.
    { apply (f_equal length) in Hdrop. rewrite length_drop in Hdrop. simpl in Hdrop.
      fold N in Hdrop. lia. }
    right. exists st. auto.
  - assert (ids !! i = Some ID) as Hi.
    { rewrite <- (Nat.add_0_r i), <- lookup_drop, Hdrop. reflexivity. }
    assert (drop (S i) ids = rest) as Hdrop'.
    { pose proof (drop_S ids ID i Hi) as HS. rewrite Hdrop in HS. congruence. }
    pose proof (lookup_lt_Some _ _ _ Hi) as HiN'. fold N in HiN'.
    destruct (claim_spec r i ID st Hinv Hi Hrun) as (st' & Hinv' & E).
    cbn [round]. rewrite E. simpl.
    pose proof (inv_filled _ _ _ _ _ _ Hinv') as Hf. fold N in Hf.
    pose proof (inv_bound _ _ _ _ _ _ Hinv') as Hb. fold N P in Hb.
    destruct (Z.eqb_spec (filled st') p) as [Hdone|Hmore].
    + left. exists (S i), st'. split; [lia|]. split; [exact Hinv'|]. split; [|reflexivity].
      unfold P. lia.
    + assert (r * N + S i < P)%nat as Hrun' by (unfold P in *; lia).
      destruct (IH (S i) st' Hdrop' ltac:(lia) Hinv' Hrun')
        as [(i' & st2 & Hi' & Hinv2 & Ht & E2)|(st2 & Hinv2 & Ht & E2)].
      * left. exists i', st2. split; [lia|]. auto.
      * right. exists st2. auto.
Qed.

Hypothesis ids_nonempty : ids <> [].

Lemma rounds_spec (fuel : nat) :
  forall r st, fill_inv ps p ids r 0 st -> (r * N < P)%nat -> (P - r * N <= fuel)%nat ->
  exists r' i' st', (0 < i' <= N)%nat /\ fill_inv ps p ids r' i' st' /\
    (r' * N + i' = P)%nat /\ rounds ps p ids fuel st = Ok (table st').
Proof.
  assert (0 < N)%nat as HN.
  { unfold N. destruct ids; [congruence|simpl; lia]. }
  induction fuel as [|fuel IH]; intros r st Hinv Hrun Hfuel; [lia|].
  cbn [rounds].
  destruct (round_spec r ids 0 st (drop_0 ids) ltac:(lia) Hinv ltac:(lia))
    as [(i' & st' & Hi' & Hinv' & Ht & E)|(st' & Hinv' & Ht & E)]; rewrite E; simpl.
  - exists r, i', st'. split; [lia|]. auto.
  - apply fill_inv_next_round in Hinv'.
    apply (IH (S r) st' Hinv'); lia.
Qed.

Lemma fill_start_inv : fill_inv ps p ids 0 0 (fill_start p N).
Proof.
  constructor; simpl; fold N P.
  - apply length_replicate.
  - apply length_replicate.
  - reflexivity.
  - lia.
  - intros k ID cur Hk Hc. apply lookup_replicate in Hc as [-> _]. simpl. lia.
  - intros k ID Hk. unfold owned. rewrite count_replicate.
    unfold turns. simpl. destruct (String.eqb ID ""); lia.
  - intros _. unfold owned. rewrite count_replicate. simpl. lia.
  - intros c s Hc. apply lookup_replicate in Hc as [-> _]. auto.
Qed.

(** The table the builder returns: every node owns as many partitions as
    it had turns when the last slot was claimed. *)
Lemma build_spec :
  exists tbl r i,
    rounds ps p ids (S P) (fill_start p N) = Ok tbl /\
    length tbl = P /\ (0 < i <= N)%nat /\ (r * N + i = P)%nat /\
    (forall k ID, ids !! k = Some ID -> owned ID tbl = turns r i k) /\
    (EmptyString ∉ ids -> owned "" tbl = 0%nat) /\
    (forall c s, tbl !! c = Some s -> s = EmptyString \/ s ∈ ids).
Proof.
  destruct (rounds_spec (S P) 0 (fill_start p N) fill_start_inv)
    as (r & i & st & Hi & Hinv & Ht & E).
  { unfold P. lia. }
  { lia. }
  exists (table st), r, i. split; [exact E|].
  split; [exact (inv_table _ _ _ _ _ _ Hinv)|]. split; [exact Hi|]. split; [exact Ht|].
  split; [|split].
  - intros k ID Hk. rewrite (inv_owned _ _ _ _ _ _ Hinv k ID Hk). fold N P.
    destruct (String.eqb ID ""); lia.
  - intros Hnin. rewrite (inv_unclaimed _ _ _ _ _ _ Hinv Hnin). fold N P. lia.
  - exact (inv_owner _ _ _ _ _ _ Hinv).
Qed.
End builder.

(** ** The table [populateLookup] builds *)

Lemma count_none {A : Type} (f : A -> bool) (l : list A) :
  count f l = 0%nat -> forall x, x ∈ l -> f x = false.
Proof.
  induction l as [|y l IH]; intros H x Hx; [inversion Hx|]. simpl in H.
  destruct (f y) eqn:E; [lia|].
  apply elem_of_cons in Hx as [->|Hx]; [exact E|]. apply IH; [lia|exact Hx].
Qed.

Lemma populateLookup_spec (m : Maglev) :
  0 < numPartitions m < two64 -> permutations_cached m ->
  NoDup (nodes m) -> nodes m <> [] ->
  exists tbl r i,
    populateLookup m = Ok (set_lookup m tbl) /\
    length tbl = Z.to_nat (numPartitions m) /\
    (0 < i <= length (nodes m))%nat /\
    (r * length (nodes m) + i = Z.to_nat (numPartitions m))%nat /\
    (forall k ID, nodes m !! k = Some ID -> owned ID tbl = turns r i k) /\
    (EmptyString ∉ nodes m -> owned "" tbl = 0%nat) /\
    (forall c s, tbl !! c = Some s -> s = EmptyString \/ s ∈ nodes m).
Proof.
  intros Hp Hc Hnd Hne.
  destruct (build_spec (permutations m) (numPartitions m) (nodes m) Hp Hc Hnd Hne)
    as (tbl & r & i & E & H).
  exists tbl, r, i. split; [|exact H].
  unfold populateLookup. destruct (nodes m) as [|x l] eqn:En; [congruence|].
  simpl length. cbn [Nat.eqb]. unfold fill_start in E. simpl length in E.
  rewrite E. reflexivity.
Qed.

(** C1, as the code has it. For a non-empty set of nodes that does not
    contain the empty identifier, each with a permutation of the partitions
    cached, the rebuilt table has one entry per partition, and each entry is
    a node of the set: no slot is left unassigned. *)
Theorem populateLookup_assigns_every_partition (m : Maglev) :
  0 < numPartitions m < two64 -> permutations_cached m ->
  NoDup (nodes m) -> nodes m <> [] -> EmptyString ∉ nodes m ->
  exists m', populateLookup m = Ok m' /\ nodes m' = nodes m /\
    length (lookup m') = Z.to_nat (numPartitions m) /\
    forall c, 0 <= c < numPartitions m ->
      exists ID, lookup m' !! Z.to_nat c = Some ID /\ ID ∈ nodes m /\ ID <> EmptyString.
Proof.
  intros Hp Hc Hnd Hne Hblank.
  destruct (populateLookup_spec m Hp Hc Hnd Hne)
    as (tbl & r & i & E & Hlen & _ & _ & _ & Hnone & Hown).
  exists (set_lookup m tbl). split; [exact E|]. split; [reflexivity|]. split; [exact Hlen|].
  intros c Hcr. simpl.
  destruct (lookup_lt_is_Some_2 tbl (Z.to_nat c)) as [ID HID]; [lia|].
  exists ID. split; [exact HID|].
  assert (ID <> EmptyString) as Hn.
  { intros ->. pose proof (count_none _ _ (Hnone Hblank) "" (list_elem_of_lookup_2 _ _ _ HID)) as F.
    discriminate F. }
  destruct (Hown _ _ HID) as [->|Hin]; [congruence|]. auto.
Qed.

(** C1 fails with the empty identifier among the nodes: the instance built
    from the nodes [""] and [a] on seven partitions has no owner in slot 5. *)
Lemma blank_node_leaves_slot_unassigned :
  nodes blank7 = [""; "a"] /\ numPartitions blank7 = 7 /\
  lookup blank7 !! Z.to_nat 5 = Some EmptyString.
Proof. vm_compute. auto. Qed.

(** ** Balance *)

Lemma turns_spread (r i N k : nat) :
  (0 < i <= N)%nat -> (k < N)%nat ->
  turns r i k = ((r * N + i) / N)%nat \/ turns r i k = ((r * N + i + N - 1) / N)%nat.
Proof.
  intros Hi Hk. unfold turns.
  assert (((r * N + i + N - 1) / N)%nat = S r) as Hceil.
  { symmetry. apply (Nat.div_unique _ _ _ (i - 1)); nia. }
  destruct (Nat.ltb_spec k i) as [Hki|Hki]; [right; rewrite Hceil; reflexivity|].
  left. apply (Nat.div_unique _ _ _ i); nia.
Qed.

(** C6. Built over a non-empty set of nodes, the table gives every node
    either the floor or the ceiling of [numPartitions / N] partitions, so the
    counts of two nodes differ by at most one. *)
Theorem populateLookup_balanced (m : Maglev) :
  0 < numPartitions m < two64 -> permutations_cached m ->
  NoDup (nodes m) -> nodes m <> [] ->
  exists m', populateLookup m = Ok m' /\
    (forall a, a ∈ nodes m ->
       owned a (lookup m') = (Z.to_nat (numPartitions m) / length (nodes m))%nat \/
       owned a (lookup m') =
         ((Z.to_nat (numPartitions m) + length (nodes m) - 1) / length (nodes m))%nat) /\
    (forall a b, a ∈ nodes m -> b ∈ nodes m ->
       (owned a (lookup m') <= owned b (lookup m') + 1)%nat).
Proof.
  intros Hp Hc Hnd Hne.
  destruct (populateLookup_spec m Hp Hc Hnd Hne)
    as (tbl & r & i & E & Hlen & Hi & Ht & Hturns & _).
  exists (set_lookup m tbl). split; [exact E|]. simpl. split.
  - intros a Ha. apply list_elem_of_lookup_1 in Ha as [k Hk].
    rewrite (Hturns k a Hk), <- Ht. apply turns_spread; [exact Hi|].
    exact (lookup_lt_Some _ _ _ Hk).
  - intros a b Ha Hb.
    apply list_elem_of_lookup_1 in Ha as [ka Hka]. apply list_elem_of_lookup_1 in Hb as [kb Hkb].
    rewrite (Hturns ka a Hka), (Hturns kb b Hkb). unfold turns.
    destruct (ka <? i)%nat, (kb <? i)%nat; lia.
Qed.

(** ** Sorting the node list *)

Lemma insert_sorted_Permutation (x : string) (l : list string) :
  insert_sorted x l ≡ₚ x :: l.
Proof.
  induction l as [|y l IH]; simpl; [reflexivity|].
  destruct (str_lt y x); [|reflexivity]. rewrite IH. apply Permutation_swap.
Qed.

Lemma sort_strings_Permutation (l : list string) : sort_strings l ≡ₚ l.
Proof.
  induction l as [|x l IH]; simpl; [reflexivity|].
  rewrite insert_sorted_Permutation, IH. reflexivity.
Qed.

Lemma insert_sorted_strictly (x : string) (l : list string) :
  strictly_sorted l -> x ∉ l -> strictly_sorted (insert_sorted x l).
Proof.
  unfold strictly_sorted. induction l as [|y l IH]; intros Hs Hx; simpl.
  - repeat constructor.
  - apply StronglySorted_cons in Hs as [Hy Hl].
    apply not_elem_of_cons in Hx as [Hxy Hxl].
    destruct (str_lt y x) eqn:E.
    + apply StronglySorted_cons. split; [|apply IH; assumption].
      rewrite insert_sorted_Permutation. constructor; assumption.
    + assert (str_lt x y = true) as Hlt.
      { destruct (str_trichotomy x y) as [H|[H|H]]; congruence. }
      apply StronglySorted_cons. split.
      * constructor; [exact Hlt|]. eapply Forall_impl; [exact Hy|].
        intros z Hz. exact (str_lt_trans _ _ _ Hlt Hz).
      * apply StronglySorted_cons. auto.
Qed.

Lemma sort_strings_strictly (l : list string) : NoDup l -> strictly_sorted (sort_strings l).
Proof.
  induction 1 as [|x l Hx Hl IH]; simpl; [constructor|].
  apply insert_sorted_strictly; [exact IH|]. rewrite sort_strings_Permutation. exact Hx.
Qed.

Lemma strictly_sorted_NoDup (l : list string) : strictly_sorted l -> NoDup l.
Proof.
  induction 1 as [|x l Hl IH Hx]; constructor; [|exact IH].
  intros Hin. rewrite Forall_forall in Hx. specialize (Hx x Hin).
  rewrite str_lt_irrefl in Hx. discriminate.
Qed.

(** ** Caching the permutations *)

Lemma generatePermutationsForNode_eq (m : Maglev) (node : string) :
  2 <= numPartitions m < two64 ->
  generatePermutationsForNode m node = Ok (permutation_for m node).
Proof.
  intros Hp.
  destruct (generatePermutationsForNode_Ok m node Hp) as (o & s & _ & _ & -> & -> & E).
  exact E.
Qed.

Lemma permutation_for_full (m : Maglev) (node : string) :
  Z.prime (numPartitions m) -> numPartitions m < 2 ^ 32 ->
  full_permutation (numPartitions m) (permutation_for m node).
Proof.
  intros Hpr Hlt. destruct (generated_full_permutation m node Hpr Hlt) as (perm & E & Hf).
  rewrite generatePermutationsForNode_eq in E.
  - injection E as <-. exact Hf.
  - pose proof (Z.prime_ge_2 _ Hpr). unfold two64. lia.
Qed.

Lemma generatePermutations_loop_spec (m : Maglev) (ns : list string) :
  2 <= numPartitions m < two64 ->
  forall g, exists g',
    generatePermutations_loop m ns (Some g) = Ok (Some g') /\
    forall ID, g' !! ID = if decide (ID ∈ ns) then Some (permutation_for m ID) else g !! ID.
Proof.
  intros Hp. induction ns as [|node ns IH]; intros g.
  - exists g. split; [reflexivity|]. intros ID.
    destruct (decide (ID ∈ [])) as [H|_]; [inversion H|reflexivity].
  - cbn [generatePermutations_loop]. rewrite generatePermutationsForNode_eq by exact Hp.
    simpl. destruct (IH (<[node := permutation_for m node]> g)) as (g' & E & Hg').
    exists g'. split; [exact E|]. intros ID. rewrite Hg'.
    destruct (decide (ID ∈ ns)) as [Hin|Hnin].
    + rewrite decide_True by (right; exact Hin). reflexivity.
    + destruct (decide (ID = node)) as [->|Hne].
      * rewrite decide_True by left. apply lookup_insert_eq.
      * rewrite decide_False.
        -- apply lookup_insert_ne. congruence.
        -- intros H. apply elem_of_cons in H as [H|H]; contradiction.
Qed.

Lemma generatePermutations_spec (m : Maglev) :
  2 <= numPartitions m < two64 ->
  exists g, generatePermutations m = Ok (set_permutations m (Some g)) /\
    forall ID, g !! ID = if decide (ID ∈ nodes m) then Some (permutation_for m ID) else None.
Proof.
  intros Hp. destruct (generatePermutations_loop_spec m (nodes m) Hp ∅) as (g & E & Hg).
  exists g. split.
  - unfold generatePermutations. rewrite E. reflexivity.
  - intros ID. rewrite Hg. destruct (decide (ID ∈ nodes m)); [reflexivity|apply lookup_empty].
Qed.

(** ** Construction *)

Lemma NewMaglev_not_prime (ns : list string) (p : Z) (H1 H2 : Hasher) :
  ~ Z.prime p ->
  NewMaglev ns p H1 H2 = Ok (None, Some "number of partitions must be prime"%string).
Proof.
  intros Hnp. unfold NewMaglev. destruct (ProbablyPrime p) eqn:E; [|reflexivity].
  apply ProbablyPrime_spec in E. contradiction.
Qed.

Lemma NewMaglev_no_nodes (p : Z) (H1 H2 : Hasher) :
  Z.prime p ->
  NewMaglev [] p H1 H2 =
    Ok (Some {| permutations := None; lookup := []; nodes := [];
                numPartitions := p; h1 := H1; h2 := H2 |}, None).
Proof.
  intros Hpr. unfold NewMaglev. apply ProbablyPrime_spec in Hpr. rewrite Hpr. reflexivity.
Qed.

Lemma NewMaglev_spec (ns : list string) (p : Z) (H1 H2 : Hasher) :
  Z.prime p -> p < 2 ^ 32 -> NoDup ns -> ns <> [] ->
  exists m, NewMaglev ns p H1 H2 = Ok (Some m, None) /\ well_formed m /\
    nodes m = sort_strings ns /\ numPartitions m = p /\ h1 m = H1 /\ h2 m = H2 /\
    length (lookup m) = Z.to_nat p /\
    (forall c s, lookup m !! c = Some s -> s = EmptyString \/ s ∈ ns) /\
    (EmptyString ∉ ns -> forall c s, lookup m !! c = Some s -> s ∈ ns).
Proof.
  intros Hpr Hlt Hnd Hne. pose proof (Z.prime_ge_2 _ Hpr) as H2p.
  assert (p < two64) as H64 by (unfold two64; lia).
  unfold NewMaglev. rewrite (proj2 (ProbablyPrime_spec p) Hpr). cbn [negb].
  assert ((0 <? length ns)%nat = true) as ->.
  { apply Nat.ltb_lt. destruct ns; [congruence|simpl; lia]. }
  set (m := {| permutations := None; lookup := []; nodes := sort_strings ns;
               numPartitions := p; h1 := H1; h2 := H2 |}).
  destruct (generatePermutations_spec m ltac:(simpl; lia)) as (g & Eg & Hg).
  rewrite Eg. cbn [mbind outcome_bind].
  set (m1 := set_permutations m (Some g)).
  assert (permutations_cached m1) as Hc.
  { intros ID HID. simpl in HID. simpl. rewrite Hg. simpl.
    rewrite decide_True by exact HID. simpl.
    apply (permutation_for_full m ID); simpl; assumption. }
  assert (strictly_sorted (nodes m1)) as Hs by (apply sort_strings_strictly; exact Hnd).
  assert (nodes m1 <> []) as Hne1.
  { simpl. intros E. pose proof (sort_strings_Permutation ns) as HP. rewrite E in HP.
    apply Permutation_nil_l in HP. congruence. }
  destruct (populateLookup_spec m1 ltac:(simpl; lia) Hc (strictly_sorted_NoDup _ Hs) Hne1)
    as (tbl & r & i & E & Hlen & _ & _ & _ & Hnone & Hown).
  rewrite E. cbn [mbind outcome_bind].
  exists (set_lookup m1 tbl). split; [reflexivity|]. split.
  - constructor; simpl; try assumption.
  - split; [reflexivity|]. split; [reflexivity|]. split; [reflexivity|]. split; [reflexivity|].
    split; [exact Hlen|]. simpl in Hown, Hnone.
    assert (forall c s, tbl !! c = Some s -> s = EmptyString \/ s ∈ ns) as Hown'.
    { intros c s Hcs. destruct (Hown c s Hcs) as [->|Hin]; [auto|right].
      rewrite <- (sort_strings_Permutation ns). exact Hin. }
    split; [exact Hown'|]. intros Hblank c s Hcs.
    destruct (Hown' c s Hcs) as [->|Hin]; [|exact Hin]. exfalso.
    assert (EmptyString ∉ sort_strings ns) as Hb.
    { rewrite sort_strings_Permutation. exact Hblank. }
    pose proof (count_none _ _ (Hnone Hb) "" (list_elem_of_lookup_2 _ _ _ Hcs)) as F.
    discriminate F.
Qed.

(** ** Probing a strictly increasing node list *)

Lemma strictly_sorted_lookup (l : list string) (i j : nat) (a b : string) :
  strictly_sorted l -> (i < j)%nat -> l !! i = Some a -> l !! j = Some b -> str_lt a b = true.
Proof.
  intros Hs. revert i j. induction Hs as [|x l Hl IH Hx]; intros i j Hij Hi Hj.
  - rewrite lookup_nil in Hi. discriminate.
  - destruct j as [|j]; [lia|]. simpl in Hj. destruct i as [|i].
    + simpl in Hi. injection Hi as ->. rewrite Forall_forall in Hx. apply Hx.
      eapply list_elem_of_lookup_2. exact Hj.
    + simpl in Hi. apply (IH i j); [lia|assumption..].
Qed.

(** A member is found at its own position. *)
Lemma probe_member (a : list string) (x : string) :
  strictly_sorted a -> x ∈ a ->
  exists pos, SearchStrings a x = Ok pos /\ a !! pos = Some x.
Proof.
  intros Hs Hin.
  destruct (SearchStrings_sorted a x (strictly_sorted_sorted _ Hs)) as (pos & E & _ & Hlo & Hhi).
  exists pos. split; [exact E|].
  apply list_elem_of_lookup_1 in Hin as [k Hk].
  destruct (lt_eq_lt_dec k pos) as [[Hlt| -> ]|Hgt]; [|exact Hk|].
  - pose proof (Hlo k x Hlt Hk) as F. rewrite str_lt_irrefl in F. discriminate.
  - destruct (lookup_lt_is_Some_2 a pos) as [s Hs'].
    { pose proof (lookup_lt_Some _ _ _ Hk). lia. }
    pose proof (strictly_sorted_lookup a pos k s x Hs Hgt Hs' Hk) as T.
    rewrite (Hhi pos s (Nat.le_refl _) Hs') in T. discriminate.
Qed.

(** An absent identifier that does not sort after every member is probed
    at the first member above it. *)
Lemma probe_absent (a : list string) (x : string) :
  sorted a -> x ∉ a -> Exists (fun s => str_lt s x = false) a ->
  exists pos s, SearchStrings a x = Ok pos /\ a !! pos = Some s /\ s <> x /\
    Forall (fun s => str_lt s x = true) (take pos a) /\
    Forall (fun s => str_lt x s = true) (drop pos a).
Proof.
  intros Hs Hnin Hex.
  destruct (SearchStrings_sorted a x Hs) as (pos & E & Hle & Hlo & Hhi).
  apply Exists_exists in Hex as (s0 & Hin0 & Hs0).
  apply list_elem_of_lookup_1 in Hin0 as [k Hk].
  assert (pos <= k)%nat as Hpk.
  { destruct (Nat.le_gt_cases pos k) as [H|H]; [exact H|].
    rewrite (Hlo k s0 H Hk) in Hs0. discriminate. }
  destruct (lookup_lt_is_Some_2 a pos) as [s Hps].
  { pose proof (lookup_lt_Some _ _ _ Hk). lia. }
  exists pos, s. split; [exact E|]. split; [exact Hps|]. split.
  { intros ->. apply Hnin. eapply list_elem_of_lookup_2. exact Hps. }
  split.
  - apply Forall_forall. intros y Hy. apply list_elem_of_lookup_1 in Hy as [j Hj].
    pose proof (lookup_lt_Some _ _ _ Hj) as Hjl. rewrite length_take in Hjl.
    rewrite lookup_take_lt in Hj by lia. apply (Hlo j y); [lia|exact Hj].
  - apply Forall_forall. intros y Hy. apply list_elem_of_lookup_1 in Hy as [j Hj].
    rewrite lookup_drop in Hj.
    pose proof (Hhi (pos + j)%nat y ltac:(lia) Hj) as Hge.
    destruct (str_trichotomy x y) as [H|[H|H]]; [exact H| |congruence].
    subst y. exfalso. apply Hnin. eapply list_elem_of_lookup_2. exact Hj.
Qed.

Lemma insert_at_strictly_sorted (a : list string) (x : string) (pos : nat) :
  strictly_sorted a ->
  Forall (fun s => str_lt s x = true) (take pos a) ->
  Forall (fun s => str_lt x s = true) (drop pos a) ->
  strictly_sorted (take pos a ++ [x] ++ drop pos a).
Proof.
  unfold strictly_sorted. intros Hs Hlo Hhi.
  rewrite <- (take_drop pos a) in Hs. apply StronglySorted_app in Hs as (_ & Ht & Hd).
  rewrite Forall_forall in Hlo. rewrite Forall_forall in Hhi.
  apply StronglySorted_app. split; [|split; [exact Ht|]].
  - intros y z Hy Hz. simpl in Hz. apply elem_of_cons in Hz as [->|Hz]; [auto|].
    exact (str_lt_trans _ _ _ (Hlo y Hy) (Hhi z Hz)).
  - simpl. constructor; [exact Hd|]. apply Forall_forall. exact Hhi.
Qed.

Lemma remove_at_strictly_sorted (a : list string) (x : string) (pos : nat) :
  strictly_sorted a -> a !! pos = Some x ->
  strictly_sorted (take pos a ++ drop (S pos) a) /\
  forall y, y ∈ take pos a ++ drop (S pos) a <-> y ∈ a /\ y <> x.
Proof.
  intros Hs Hx. pose proof (strictly_sorted_NoDup _ Hs) as Hnd.
  pose proof (take_drop_middle a pos x Hx) as Hmid.
  rewrite <- Hmid in Hs, Hnd. split.
  - unfold strictly_sorted in *. apply StronglySorted_app in Hs as (Hc & Ht & Hd).
    apply StronglySorted_cons in Hd as (_ & Hd).
    apply StronglySorted_app. split; [|auto].
    intros y z Hy Hz. apply Hc; [exact Hy|]. right. exact Hz.
  - apply NoDup_app in Hnd as (_ & Hc & Hd). apply NoDup_cons in Hd as (Hxd & _).
    intros y. rewrite <- Hmid at 3. rewrite !elem_of_app, elem_of_cons. split.
    + intros [Hy|Hy].
      * split; [auto|]. intros ->. apply (Hc x Hy). left.
      * split; [auto|]. intros ->. exact (Hxd Hy).
    + intros [[Hy|[->|Hy]] Hne]; [auto|congruence|auto].
Qed.

(** ** Adding nodes *)

Lemma full_permutation_nonempty (p : Z) (perm : list Z) :
  0 < p -> full_permutation p perm -> perm <> [].
Proof.
  intros Hp Hf ->. apply Permutation_length in Hf. rewrite length_seqZ in Hf.
  simpl in Hf. lia.
Qed.

Lemma cached_map (m : Maglev) (ID : string) :
  0 < numPartitions m -> permutations_cached m -> ID ∈ nodes m ->
  exists g, permutations m = Some g.
Proof.
  intros Hp Hc HID. pose proof (full_permutation_nonempty _ _ Hp (Hc ID HID)) as Hne.
  destruct (permutations m) as [g|]; [eauto|]. simpl in Hne. congruence.
Qed.

Lemma Add_loop_member (m : Maglev) (x : string) (rest : list string) (n : Z) :
  strictly_sorted (nodes m) -> x ∈ nodes m ->
  Add_loop m (x :: rest) n = Add_loop m rest n.
Proof.
  intros Hs Hin. destruct (probe_member _ _ Hs Hin) as (pos & E & Hpos).
  cbn [Add_loop]. rewrite E. cbn [mbind outcome_bind].
  rewrite (proj2 (index_Ok _ _ _) Hpos). cbn [mbind outcome_bind].
  rewrite String.eqb_refl. reflexivity.
Qed.

Lemma Add_loop_absent (m : Maglev) (x : string) (rest : list string) (n : Z) :
  well_formed m -> numPartitions m < 2 ^ 32 ->
  x ∉ nodes m -> Exists (fun s => str_lt s x = false) (nodes m) ->
  exists m', Add_loop m (x :: rest) n = Add_loop m' rest (n + 1) /\
    well_formed m' /\ numPartitions m' = numPartitions m /\
    h1 m' = h1 m /\ h2 m' = h2 m /\ lookup m' = lookup m /\
    (forall y, y ∈ nodes m' <-> y = x \/ y ∈ nodes m) /\
    length (nodes m') = S (length (nodes m)).
Proof.
  intros [Hpr H64 Hs Hc] Hlt Hnin Hex. pose proof (Z.prime_ge_2 _ Hpr) as H2.
  destruct (probe_absent _ _ (strictly_sorted_sorted _ Hs) Hnin Hex)
    as (pos & s & E & Hpos & Hne & Hlo & Hhi).
  destruct (cached_map m s ltac:(lia) Hc (list_elem_of_lookup_2 _ _ _ Hpos)) as [g Hg].
  set (ns := take pos (nodes m) ++ [x] ++ drop pos (nodes m)).
  exists {| permutations := Some (<[x := permutation_for m x]> g); lookup := lookup m;
            nodes := ns; numPartitions := numPartitions m; h1 := h1 m; h2 := h2 m |}.
  assert (forall y, y ∈ ns <-> y = x \/ y ∈ nodes m) as Hmem.
  { intros y. unfold ns. rewrite <- (take_drop pos (nodes m)) at 3.
    rewrite !elem_of_app, elem_of_cons, elem_of_nil. tauto. }
  split; [|split; [|split; [|split; [|split; [|split; [|split]]]]]]; try reflexivity.
  - cbn [Add_loop]. rewrite E. cbn [mbind outcome_bind].
    rewrite (proj2 (index_Ok _ _ _) Hpos). cbn [mbind outcome_bind].
    apply String.eqb_neq in Hne. rewrite Hne. cbn [negb].
    rewrite generatePermutationsForNode_eq by (simpl; lia).
    cbn [mbind outcome_bind]. unfold set_permutations, set_nodes.
    cbn [permutations lookup nodes numPartitions h1 h2]. rewrite Hg. reflexivity.
  - constructor; simpl; try assumption.
    + apply insert_at_strictly_sorted; assumption.
    + intros ID HID. simpl in HID. simpl.
      destruct (decide (ID = x)) as [->|Hd].
      * rewrite lookup_insert_eq. simpl. apply permutation_for_full; assumption.
      * rewrite lookup_insert_ne by congruence. apply Hmem in HID as [?|HID]; [congruence|].
        specialize (Hc ID HID). rewrite Hg in Hc. exact Hc.
  - exact Hmem.
  - simpl. unfold ns. rewrite !length_app, length_take, length_drop. simpl.
    pose proof (lookup_lt_Some _ _ _ Hpos). lia.
Qed.

(** With a member that no argument sorts after, the insertion loop runs to
    its end: it keeps the instance well formed, adds to the node list the
    arguments that were absent, and counts them. *)
Lemma Add_loop_spec (args : list string) :
  forall (m : Maglev) (n : Z),
  well_formed m -> numPartitions m < 2 ^ 32 ->
  Forall (fun x => Exists (fun s => str_lt s x = false) (nodes m)) args ->
  exists m1 k, Add_loop m args n = Ok (m1, n + k) /\ 0 <= k /\
    well_formed m1 /\ numPartitions m1 = numPartitions m /\
    h1 m1 = h1 m /\ h2 m1 = h2 m /\ lookup m1 = lookup m /\
    (forall y, y ∈ nodes m1 <-> y ∈ nodes m \/ y ∈ args) /\
    Z.of_nat (length (nodes m1)) = Z.of_nat (length (nodes m)) + k.
Proof.
  induction args as [|x rest IH]; intros m n Hwf Hlt Hall.
  - exists m, 0. rewrite Z.add_0_r. conjs; auto; try lia.
    intros y. split; [auto|]. intros [H|H]; [exact H|inversion H].
  - apply Forall_cons in Hall as [Hx Hrest].
    destruct (decide (x ∈ nodes m)) as [Hin|Hnin].
    + rewrite (Add_loop_member m x rest n (wf_sorted _ Hwf) Hin).
      destruct (IH m n Hwf Hlt Hrest) as (m1 & k & E & Hk & Hwf1 & Hp & Hh1 & Hh2 & Hl & Hmem & Hlen).
      exists m1, k. conjs; auto; intros y; split.
      * intros H. apply Hmem in H as [H|H]; [auto|right; right; exact H].
      * intros [H|H]; apply Hmem; [auto|].
        apply elem_of_cons in H as [->|H]; auto.
    + destruct (Add_loop_absent m x rest n Hwf Hlt Hnin Hx)
        as (m' & E' & Hwf' & Hp' & Hh1' & Hh2' & Hl' & Hmem' & Hlen').
      rewrite E'.
      destruct (IH m' (n + 1)) as (m1 & k & E & Hk & Hwf1 & Hp & Hh1 & Hh2 & Hl & Hmem & Hlen).
      * exact Hwf'.
      * rewrite Hp'. exact Hlt.
      * eapply Forall_impl; [exact Hrest|]. intros y Hy. simpl in Hy.
        apply Exists_exists in Hy as (s & Hs & Hsy). apply Exists_exists.
        exists s. split; [apply Hmem'; auto|exact Hsy].
      * exists m1, (1 + k). rewrite Z.add_assoc. conjs; auto; try lia; try congruence.
        intros y; split.
        -- intros H. apply Hmem in H as [H|H].
           ++ apply Hmem' in H as [->|H]; [right; left|auto].
           ++ right. right. exact H.
        -- intros [H|H]; apply Hmem.
           ++ left. apply Hmem'. auto.
           ++ apply elem_of_cons in H as [->|H]; [left; apply Hmem'; auto|auto].
Qed.

Lemma le_trans_false (s x y : string) :
  str_lt s x = false -> str_lt x y = false -> str_lt s y = false.
Proof.
  intros Hsx Hxy. pose proof (str_ge_trans x s y Hsx) as H. unfold str_ge in H.
  rewrite Hxy in H. specialize (H eq_refl). apply negb_true_iff in H. exact H.
Qed.

(** The insertion loop can only run to its end when no argument sorts
    after every member. *)
Lemma Add_loop_in_range (args : list string) :
  forall (m : Maglev) (n : Z) (r : Maglev * Z),
  well_formed m -> numPartitions m < 2 ^ 32 ->
  Add_loop m args n = Ok r ->
  Forall (fun x => Exists (fun s => str_lt s x = false) (nodes m)) args.
Proof.
  induction args as [|x rest IH]; intros m n r Hwf Hlt E; [constructor|].
  assert (Exists (fun s => str_lt s x = false) (nodes m)) as Hx.
  { cbn [Add_loop] in E. apply bind_Ok in E as (pos & Epos & E).
    apply bind_Ok in E as (s & Es & _). apply index_Ok in Es.
    destruct (SearchStrings_sorted (nodes m) x (strictly_sorted_sorted _ (wf_sorted _ Hwf)))
      as (pos' & Epos' & _ & _ & Hhi).
    assert (pos' = pos) as -> by congruence.
    apply Exists_exists. exists s. split; [eapply list_elem_of_lookup_2; exact Es|].
    exact (Hhi pos s (Nat.le_refl _) Es). }
  constructor; [exact Hx|].
  destruct (decide (x ∈ nodes m)) as [Hin|Hnin].
  - rewrite (Add_loop_member m x rest n (wf_sorted _ Hwf) Hin) in E.
    exact (IH m n r Hwf Hlt E).
  - destruct (Add_loop_absent m x rest n Hwf Hlt Hnin Hx)
      as (m' & E' & Hwf' & Hp' & _ & _ & _ & Hmem' & _).
    rewrite E' in E. rewrite <- Hp' in Hlt.
    eapply Forall_impl; [exact (IH m' (n + 1) r Hwf' Hlt E)|].
    intros y Hy. simpl in Hy. apply Exists_exists in Hy as (s & Hs & Hsy).
    apply Hmem' in Hs as [->|Hs].
    + apply Exists_exists in Hx as (s0 & Hs0 & Hs0x). apply Exists_exists.
      exists s0. split; [exact Hs0|]. exact (le_trans_false _ _ _ Hs0x Hsy).
    + apply Exists_exists. eauto.
Qed.

(** The rebuild reads the node list, the cached permutations and the
    partition count, and nothing of the table it replaces. *)
Lemma populateLookup_set_lookup (m : Maglev) (t : list string) :
  populateLookup (set_lookup m t) =
    (m' ← populateLookup m; Ok (set_lookup m' (lookup m'))).
Proof.
  unfold populateLookup. cbn [set_lookup nodes permutations numPartitions].
  destruct (length (nodes m) =? 0)%nat; [reflexivity|].
  match goal with |- context [rounds ?a ?b ?c ?d ?e] => destruct (rounds a b c d e) end;
    reflexivity.
Qed.

Lemma set_lookup_lookup (m : Maglev) : set_lookup m (lookup m) = m.
Proof. destruct m. reflexivity. Qed.

Lemma well_formed_rebuild (m : Maglev) :
  well_formed m -> nodes m <> [] ->
  exists tbl, populateLookup m = Ok (set_lookup m tbl) /\
    well_formed (set_lookup m tbl) /\
    length tbl = Z.to_nat (numPartitions m) /\
    (forall c s, tbl !! c = Some s -> s = EmptyString \/ s ∈ nodes m) /\
    (EmptyString ∉ nodes m -> forall c s, tbl !! c = Some s -> s ∈ nodes m) /\
    (forall a b, a ∈ nodes m -> b ∈ nodes m -> (owned a tbl <= owned b tbl + 1)%nat).
Proof.
  intros [Hpr H64 Hs Hc] Hne. pose proof (Z.prime_ge_2 _ Hpr) as H2.
  destruct (populateLookup_spec m ltac:(lia) Hc (strictly_sorted_NoDup _ Hs) Hne)
    as (tbl & r & i & E & Hlen & Hi & Ht & Hturns & Hnone & Hown).
  exists tbl. split; [exact E|]. split; [constructor; assumption|]. split; [exact Hlen|].
  split; [exact Hown|]. split.
  - intros Hblank c s Hcs. destruct (Hown c s Hcs) as [->|Hin]; [|exact Hin]. exfalso.
    pose proof (count_none _ _ (Hnone Hblank) "" (list_elem_of_lookup_2 _ _ _ Hcs)) as F.
    discriminate F.
  - intros a b Ha Hb.
    apply list_elem_of_lookup_1 in Ha as [ka Hka]. apply list_elem_of_lookup_1 in Hb as [kb Hkb].
    rewrite (Hturns ka a Hka), (Hturns kb b Hkb). unfold turns.
    destruct (ka <? i)%nat, (kb <? i)%nat; lia.
Qed.

Lemma Lookup_in_table (m : Maglev) (key : Z) :
  0 < numPartitions m <= 2 ^ 63 -> length (lookup m) = Z.to_nat (numPartitions m) ->
  exists s, Lookup m key = Ok s /\ lookup m !! Z.to_nat (key mod numPartitions m) = Some s.
Proof.
  intros Hp Hlen. pose proof (Z.mod_pos_bound key (numPartitions m) ltac:(lia)) as Hb.
  destruct (lookup_lt_is_Some_2 (lookup m) (Z.to_nat (key mod numPartitions m))) as [s Hs]; [lia|].
  exists s. split; [|exact Hs]. unfold Lookup, PartitionID, u64_rem.
  destruct (Z.eqb_spec (numPartitions m) 0) as [F|_]; [lia|]. cbn [mbind outcome_bind].
  rewrite int_of_u64_small by lia.
  destruct (Z.ltb_spec (key mod numPartitions m) 0) as [F|_]; [lia|].
  apply index_Ok. exact Hs.
Qed.


(** C7, as the code has it. On an instance with room for one more node,
    for an absent identifier [x] that some member does not sort before,
    [Add x] returns count 1 without error, a second [Add x] returns count 0
    without error, and the second call leaves the instance, its lookup table
    included, as the first call left it. *)
Theorem Add_twice (m : Maglev) (x : string) :
  well_formed m -> numPartitions m < 2 ^ 32 ->
  x ∉ nodes m -> Exists (fun s => str_lt s x = false) (nodes m) ->
  Size m < Partitions m ->
  exists m1 m2, Add m [x] = Ok (m1, 1, None) /\ Add m1 [x] = Ok (m2, 0, None) /\
    lookup m2 = lookup m1 /\ m2 = m1 /\ Contains m1 x = Ok true.
Proof.
  intros Hwf Hlt Hnin Hex Hroom. unfold Size, Partitions in Hroom.
  destruct (Add_loop_absent m x [] 0 Hwf Hlt Hnin Hex)
    as (m' & E & Hwf' & Hp & _ & _ & _ & Hmem & Hlen).
  change (Add_loop m' [] (0 + 1)) with (Ok (m', 1)) in E.
  assert (nodes m' <> []) as Hne.
  { intros H0. rewrite H0 in Hlen. discriminate. }
  destruct (well_formed_rebuild m' Hwf' Hne) as (tbl & Eb & Hwf1 & _).
  assert (x ∈ nodes m') as Hx by (apply Hmem; auto).
  assert ((numPartitions m' <? Z.of_nat (length (nodes m'))) = false) as Hcap.
  { apply Z.ltb_ge. rewrite Hp, Hlen. lia. }
  exists (set_lookup m' tbl), (set_lookup m' tbl). conjs; auto.
  - unfold Add. rewrite E. cbn [mbind outcome_bind]. rewrite Eb. cbn [mbind outcome_bind].
    cbn [set_lookup numPartitions nodes]. rewrite Hcap. reflexivity.
  - unfold Add.
    rewrite (Add_loop_member (set_lookup m' tbl) x [] 0 (wf_sorted _ Hwf1) Hx).
    cbn [Add_loop mbind outcome_bind].
    rewrite populateLookup_set_lookup, Eb. cbn [mbind outcome_bind].
    cbn [set_lookup numPartitions nodes lookup permutations h1 h2]. rewrite Hcap. reflexivity.
  - rewrite (Contains_in_range (set_lookup m' tbl) x).
    + simpl. rewrite bool_decide_eq_true_2 by exact Hx. reflexivity.
    + apply strictly_sorted_sorted, (wf_sorted _ Hwf1).
    + simpl. apply Exists_exists. exists x. split; [exact Hx|apply str_lt_irrefl].
Qed.

(** C7 fails at capacity: on the instance built from [b] and [c] on two
    partitions, [Add a] inserts the absent [a] and returns count 1 together
    with the capacity error. *)
Lemma Add_at_capacity_reports_error :
  nodes bc2 = ["b"; "c"] /\ Partitions bc2 = 2 /\ Contains bc2 "a" = Ok false /\
  exists m1, Add bc2 ["a"] =
    Ok (m1, 1, Some "number of nodes exceed number of partitions"%string).
Proof.
  split; [vm_compute; reflexivity|]. split; [vm_compute; reflexivity|].
  split; [vm_compute; reflexivity|].
  destruct (Add bc2 ["a"]) as [[[m1 n] e]| |] eqn:E; [|vm_compute in E; discriminate..].
  exists m1. f_equal. vm_compute in E. injection E as <- <- <-. reflexivity.
Qed.

(** ** The empty identifier as a node *)

Lemma skip_taken_stops_free (perm : list Z) (tbl : list string) (fuel : nat) :
  forall cur c cur' c', skip_taken perm tbl fuel cur c = Ok (cur', c') ->
  tbl !! Z.to_nat c' = Some EmptyString.
Proof.
  induction fuel as [|fuel IH]; intros cur c cur' c' E; cbn [skip_taken] in E;
    apply bind_Ok in E as (owner & Ho & E); apply index_Ok in Ho;
    destruct (String.eqb_spec owner "") as [->|Hne]; cbn [negb] in E;
    try discriminate; try (injection E as <- <-; exact Ho).
  apply bind_Ok in E as (c1 & _ & E). exact (IH _ _ _ _ E).
Qed.

(** A turn of the node [""] writes the sentinel over the sentinel: the table
    is left as it was, while the cursor and the counter move on. *)
Lemma claim_blank (ps : option (gmap string (list Z))) (p : Z) (i : nat) (st : fill)
    (r : list string + fill) :
  claim ps p i "" st = Ok r ->
  match r with
  | inl tbl => tbl = table st /\ u64 (filled st + 1) = p
  | inr st' => table st' = table st /\ filled st' = u64 (filled st + 1)
  end.
Proof.
  unfold claim. intros E.
  apply bind_Ok in E as (cur & _ & E). apply bind_Ok in E as (c & _ & E).
  apply bind_Ok in E as ([cur' c'] & Es & E).
  apply skip_taken_stops_free in Es. apply list_insert_id in Es.
  destruct (Z.eqb_spec (u64 (filled st + 1)) p) as [Hp|Hp]; injection E as <-; simpl; auto.
Qed.

Lemma nothing_below_blank (s : string) : str_lt s "" = false.
Proof. destruct s; reflexivity. Qed.

Lemma blank_sorts_first (l : list string) :
  strictly_sorted l -> EmptyString ∈ l -> l !! 0%nat = Some EmptyString.
Proof.
  intros Hs Hin. apply list_elem_of_lookup_1 in Hin as [k Hk].
  destruct k as [|k]; [exact Hk|].
  destruct l as [|s l]; [discriminate|].
  pose proof (strictly_sorted_lookup (s :: l) 0 (S k) s "" Hs ltac:(lia) eq_refl Hk) as F.
  rewrite nothing_below_blank in F. discriminate.
Qed.

(** C10. With the empty identifier among the nodes, a turn of that node
    leaves the table as it found it and still advances the fill counter, so
    the slot it took stays open to every later turn; the builder returns with
    the counter at [numPartitions] and at least one slot holding [""], and
    [Lookup] returns [""] for a key of that partition although the node list
    is not empty. *)
Theorem blank_node_breaks_single_owner (m : Maglev) :
  0 < numPartitions m <= 2 ^ 63 -> permutations_cached m ->
  strictly_sorted (nodes m) -> EmptyString ∈ nodes m ->
  (forall i st r, claim (permutations m) (numPartitions m) i "" st = Ok r ->
     match r with
     | inl tbl => tbl = table st /\ u64 (filled st + 1) = numPartitions m
     | inr st' => table st' = table st /\ filled st' = u64 (filled st + 1)
     end) /\
  exists m', populateLookup m = Ok m' /\ nodes m' = nodes m /\
    length (lookup m') = Z.to_nat (numPartitions m) /\
    (1 <= owned "" (lookup m'))%nat /\
    exists key, 0 <= key < numPartitions m /\ Lookup m' key = Ok EmptyString.
Proof.
  intros Hp Hc Hs Hin. split; [intros i st r; apply claim_blank|].
  assert (nodes m <> []) as Hne by (intros H0; rewrite H0 in Hin; inversion Hin).
  destruct (populateLookup_spec m ltac:(unfold two64; lia) Hc (strictly_sorted_NoDup _ Hs) Hne)
    as (tbl & r & i & E & Hlen & Hi & _ & Hturns & _).
  exists (set_lookup m tbl). split; [exact E|]. split; [reflexivity|]. split; [exact Hlen|].
  pose proof (Hturns 0%nat "" (blank_sorts_first _ Hs Hin)) as Hown.
  assert (turns r i 0 = S r) as Ht.
  { unfold turns. destruct (Nat.ltb_spec 0 i); [reflexivity|lia]. }
  rewrite Ht in Hown. simpl. split; [lia|].
  destruct (count_pos (String.eqb "") tbl ltac:(unfold owned in Hown; lia)) as (c & s & Hcs & Hs0).
  apply String.eqb_eq in Hs0. subst s.
  pose proof (lookup_lt_Some _ _ _ Hcs) as Hclt. rewrite Hlen in Hclt.
  exists (Z.of_nat c). split; [lia|].
  unfold Lookup, PartitionID, u64_rem. simpl.
  destruct (Z.eqb_spec (numPartitions m) 0) as [F|_]; [lia|]. cbn [mbind outcome_bind].
  rewrite Z.mod_small by lia. rewrite int_of_u64_small by lia.
  destruct (Z.ltb_spec (Z.of_nat c) 0) as [F|_]; [lia|].
  rewrite Nat2Z.id. apply index_Ok. exact Hcs.
Qed.

(** On seven partitions with the nodes [""] and [a]: the third turn is a
    turn of [""], which moves its cursor past partition 4 and leaves the
    table as it was; the sixth turn is a turn of [a], which claims
    partition 4. *)
Lemma blank_slot_claimed_again :
  let ps := permutations blank7 in
  let st2 := {| table := [""; ""; ""; "a"; ""; ""; ""]; next := [1; 1]%nat; filled := 2 |} in
  let st3 := {| table := [""; ""; ""; "a"; ""; ""; ""]; next := [2; 1]%nat; filled := 3 |} in
  let st4 := {| table := ["a"; ""; ""; "a"; ""; ""; ""]; next := [2; 2]%nat; filled := 4 |} in
  let st5 := {| table := ["a"; ""; ""; "a"; ""; ""; ""]; next := [5; 2]%nat; filled := 5 |} in
  let st6 := {| table := ["a"; ""; ""; "a"; "a"; ""; ""]; next := [5; 3]%nat; filled := 6 |} in
  nodes blank7 = [""; "a"] /\
  perm_of ps "" !! 1%nat = Some 4 /\ perm_of ps "a" !! 2%nat = Some 4 /\
  round ps 7 0 (nodes blank7) (fill_start 7 2) = Ok (inr st2) /\
  claim ps 7 0 "" st2 = Ok (inr st3) /\
  claim ps 7 1 "a" st3 = Ok (inr st4) /\
  claim ps 7 0 "" st4 = Ok (inr st5) /\
  claim ps 7 1 "a" st5 = Ok (inr st6) /\
  claim ps 7 0 "" st6 = Ok (inl (lookup blank7)).
Proof. vm_compute. conjs; reflexivity. Qed.

(** ** The instances used as examples *)

Lemma NewMaglev_built (ns : list string) (p : Z) (H1 H2 : Hasher) :
  ProbablyPrime p = true -> p < 2 ^ 32 -> NoDup ns -> ns <> [] ->
  NewMaglev ns p H1 H2 = Ok (Some (built (NewMaglev ns p H1 H2)), None) /\
  well_formed (built (NewMaglev ns p H1 H2)).
Proof.
  intros Hpr Hlt Hnd Hne. apply ProbablyPrime_spec in Hpr.
  destruct (NewMaglev_spec ns p H1 H2 Hpr Hlt Hnd Hne) as (m & E & Hwf & _).
  rewrite E. simpl. auto.
Qed.

Lemma abc7_well_formed : well_formed abc7.
Proof.
  apply NewMaglev_built; [reflexivity|reflexivity| |discriminate].
  apply (bool_decide_unpack _). vm_compute. exact I.
Qed.

Lemma blank7_well_formed : well_formed blank7.
Proof.
  apply NewMaglev_built; [reflexivity|reflexivity| |discriminate].
  apply (bool_decide_unpack _). vm_compute. exact I.
Qed.


Lemma abc7_nodes : nodes abc7 = ["a"; "b"; "c"].
Proof. vm_compute. reflexivity. Qed.

Lemma blank7_nodes : nodes blank7 = [""; "a"].
Proof. vm_compute. reflexivity. Qed.

Lemma probe_after_all_members_panics_witness :
  Contains abc7 "d" = Panic IndexOutOfRange /\
  Add abc7 ["d"] = Panic IndexOutOfRange /\
  Remove abc7 ["d"] = Panic IndexOutOfRange.
Proof.
  apply (probe_after_all_members_panics abc7 "d" []).
  rewrite abc7_nodes. repeat constructor.
Defined.

Lemma populateLookup_assigns_every_partition_witness :
  exists m', populateLookup abc7 = Ok m' /\ nodes m' = nodes abc7 /\
    length (lookup m') = Z.to_nat (numPartitions abc7) /\
    forall c, 0 <= c < numPartitions abc7 ->
      exists ID, lookup m' !! Z.to_nat c = Some ID /\ ID ∈ nodes abc7 /\ ID <> EmptyString.
Proof.
  apply (populateLookup_assigns_every_partition abc7).
  - vm_compute. split; reflexivity.
  - exact (wf_cached _ abc7_well_formed).
  - exact (strictly_sorted_NoDup _ (wf_sorted _ abc7_well_formed)).
  - rewrite abc7_nodes. discriminate.
  - rewrite abc7_nodes. apply (bool_decide_unpack _). vm_compute. exact I.
Defined.

Lemma populateLookup_balanced_witness :
  exists m', populateLookup abc7 = Ok m' /\
    (forall a, a ∈ nodes abc7 ->
       owned a (lookup m') = (Z.to_nat (numPartitions abc7) / length (nodes abc7))%nat \/
       owned a (lookup m') =
         ((Z.to_nat (numPartitions abc7) + length (nodes abc7) - 1) / length (nodes abc7))%nat) /\
    (forall a b, a ∈ nodes abc7 -> b ∈ nodes abc7 ->
       (owned a (lookup m') <= owned b (lookup m') + 1)%nat).
Proof.
  apply (populateLookup_balanced abc7).
  - vm_compute. split; reflexivity.
  - exact (wf_cached _ abc7_well_formed).
  - exact (strictly_sorted_NoDup _ (wf_sorted _ abc7_well_formed)).
  - rewrite abc7_nodes. discriminate.
Defined.


Lemma Add_twice_witness :
  exists m1 m2, Add abc7 ["ab"] = Ok (m1, 1, None) /\ Add m1 ["ab"] = Ok (m2, 0, None) /\
    lookup m2 = lookup m1 /\ m2 = m1 /\ Contains m1 "ab" = Ok true.
Proof.
  apply (Add_twice abc7 "ab" abc7_well_formed eq_refl).
  - rewrite abc7_nodes. apply (bool_decide_unpack _). vm_compute. exact I.
  - rewrite abc7_nodes. right. left. reflexivity.
  - vm_compute. reflexivity.
Defined.

Lemma blank_node_breaks_single_owner_witness :
  exists m', populateLookup blank7 = Ok m' /\ nodes m' = nodes blank7 /\
    length (lookup m') = Z.to_nat (numPartitions blank7) /\
    (1 <= owned "" (lookup m'))%nat /\
    exists key, 0 <= key < numPartitions blank7 /\ Lookup m' key = Ok EmptyString.
Proof.
  apply (blank_node_breaks_single_owner blank7).
  - vm_compute. split; congruence.
  - exact (wf_cached _ blank7_well_formed).
  - exact (wf_sorted _ blank7_well_formed).
  - rewrite blank7_nodes. left.
Defined.

(** ** A partition count above [2^63]

    Primality by Lucas' test: if [a^(N-1) = 1] and [a^((N-1)/q) <> 1] modulo
    [N] for every prime factor [q] of [N - 1], the order of [a] is [N - 1],
    which by Euler's theorem divides the number of units modulo [N]; so
    every residue but 0 is a unit. *)

Lemma prime_factor_of_divisor (qs : list Z) :
  Forall Z.prime qs -> forall m, 1 < m -> (m | foldr Z.mul 1 qs) ->
  exists q, q ∈ qs /\ (q | m).
Proof.
  induction 1 as [|q qs Hq Hqs IH]; intros m Hm Hd; simpl in Hd.
  - apply Z.divide_1_r_nonneg in Hd; lia.
  - pose proof (Z.prime_ge_2 _ Hq) as Hq2.
    destruct (Z.eq_dec (m mod q) 0) as [Hqm|Hqm].
    + exists q. split; [left|]. apply Z.mod_divide; [lia|exact Hqm].
    + assert (~ (q | m)) as Hnd by (intros Hd'; apply Hqm, Z.mod_divide; [lia|exact Hd']).
      clear Hqm. rename Hnd into Hqm.
      apply (Z.coprime_prime_l q m Hq) in Hqm. unfold Z.coprime in Hqm.
      rewrite Z.gcd_comm in Hqm. apply Z.gauss in Hd; [|exact Hqm].
      destruct (IH m Hm Hd) as (q' & Hin & Hd'). exists q'. split; [right; exact Hin|exact Hd'].
Qed.

Section lucas.
Variables (N a : Z) (qs : list Z).
Hypothesis HN : 2 <= N.
Hypothesis Hcop : Z.gcd a N = 1.
Hypothesis Hfactor : N - 1 = foldr Z.mul 1 qs.
Hypothesis Hprimes : Forall Z.prime qs.
Hypothesis Hone : Zpow_mod a (N - 1) N = 1.
Hypothesis Hq : Forall (fun q => Zpow_mod a ((N - 1) / q) N <> 1) qs.

Let x : Zmod N := Zmod.of_Z N a.

Lemma lucas_coprime : Z.gcd (Zmod.unsigned x) N = 1.
Proof.
  unfold x. rewrite Zmod.unsigned_of_Z, Z.gcd_mod by lia. rewrite Z.gcd_comm. exact Hcop.
Qed.

Lemma lucas_pow (k : Z) : 0 <= k -> (Zmod.pow x k = Zmod.one <-> Zpow_mod a k N = 1).
Proof.
  intros Hk. unfold x. rewrite <- Zmod.of_Z_pow by exact Hk.
  unfold Zmod.one. rewrite Zmod.of_Z_inj, Zpow_mod_correct by lia.
  rewrite (Z.mod_small 1) by lia. reflexivity.
Qed.

Lemma lucas_euler : Zmod.pow x (Z.of_nat (length (Zmod.invertibles N))) = Zmod.one.
Proof.
  pose proof (Zstar.euler (Zstar.of_Zmod x)) as H.
  apply (f_equal Zstar.to_Zmod) in H.
  rewrite Zstar.to_Zmod_pow, Zstar.to_Zmod_of_Zmod, Zstar.to_Zmod_1 in H by exact lucas_coprime.
  rewrite <- Zstar.to_Zmod_elements, List.length_map. exact H.
Qed.

Lemma lucas_order (e : Z) : Zmod.pow x e = Zmod.one -> (N - 1 | e).
Proof.
  intros He. pose proof lucas_coprime as Hc.
  destruct (Z.gcd_bezout (N - 1) e _ eq_refl) as (u & v & Huv).
  set (g := Z.gcd (N - 1) e) in *.
  assert (Zmod.pow x g = Zmod.one) as Hg.
  { rewrite <- Huv, Zmod.pow_add_r_coprime by exact Hc.
    rewrite (Z.mul_comm u), (Z.mul_comm v), !Zmod.pow_mul_r_coprime by exact Hc.
    rewrite (proj2 (lucas_pow (N - 1) ltac:(lia)) Hone), He, !Zmod.pow_1_l.
    apply Zmod.mul_1_l. }
  assert (0 < g) as Hgpos.
  { pose proof (Z.gcd_nonneg (N - 1) e). fold g in H.
    destruct (Z.eq_dec g 0) as [E|E]; [|lia].
    apply Z.gcd_eq_0_l in E. lia. }
  destruct (Z.gcd_divide_l (N - 1) e) as [m Hm]. fold g in Hm.
  destruct (Z.eq_dec m 1) as [->|Hm1].
  { rewrite Hm, Z.mul_1_l. apply Z.gcd_divide_r. }
  exfalso. assert (1 < m) as Hm2 by nia.
  destruct (prime_factor_of_divisor qs Hprimes m Hm2) as (q & Hin & [m' Hm']).
  { rewrite <- Hfactor. exists g. lia. }
  rewrite Forall_forall in Hq. apply (Hq q Hin).
  rewrite List.Forall_forall in Hprimes.
  assert (Z.prime q) as Hqp by (apply Hprimes, list_elem_of_In; exact Hin).
  pose proof (Z.prime_ge_2 _ Hqp) as Hq2.
  assert ((N - 1) / q = g * m') as ->.
  { rewrite Hm, Hm'. replace (m' * q * g) with (g * m' * q) by ring.
    apply Z.div_mul. lia. }
  apply lucas_pow; [nia|].
  rewrite Zmod.pow_mul_r_coprime, Hg by exact Hc. apply Zmod.pow_1_l.
Qed.

Theorem lucas : Z.prime N.
Proof.
  set (e := length (Zmod.invertibles N)).
  pose proof (lucas_order _ lucas_euler) as [k Hk]. fold e in Hk.
  assert (List.In x (Zmod.invertibles N)) as Hx by (apply Zmod.in_invertibles, lucas_coprime).
  assert (0 < e)%nat as He0.
  { unfold e. destruct (Zmod.invertibles N); [destruct Hx|simpl; lia]. }
  assert (forall n, (n | N) -> 1 < n < N -> ~ List.In (Zmod.of_Z N n) (Zmod.invertibles N)) as Hdiv.
  { intros n Hn Hr Hin. apply Zmod.in_invertibles in Hin. unfold Z.coprime in Hin.
    rewrite Zmod.unsigned_of_Z, Z.mod_small in Hin by lia.
    rewrite (proj1 (Z.divide_gcd_iff n N ltac:(lia)) Hn) in Hin. lia. }
  assert (~ List.In (@Zmod.zero N) (Zmod.invertibles N)) as Hz.
  { intros Hin. apply Zmod.in_invertibles in Hin. unfold Z.coprime in Hin.
    rewrite Zmod.unsigned_0, Z.gcd_0_l in Hin. lia. }
  assert (Z.of_nat e = N - 1) as HeN.
  { assert (S e <= Z.abs_nat N)%nat as Hle.
    { rewrite <- Zmod.length_elements.
      apply (List.NoDup_incl_length (l := Zmod.zero :: Zmod.invertibles N)).
      - constructor; [exact Hz|apply Zmod.NoDup_invertibles].
      - intros y _. apply Zmod.in_elements. lia. }
    assert (Z.of_nat e <= N - 1) as Hle' by lia.
    assert (0 < k) by nia. assert (k = 1) by nia. lia. }
  split; [lia|]. intros n Hn Hd.
  assert (S (S e) <= Z.abs_nat N)%nat as Hle.
  { rewrite <- Zmod.length_elements.
    apply (List.NoDup_incl_length (l := Zmod.zero :: Zmod.of_Z N n :: Zmod.invertibles N)).
    - constructor; [|constructor; [apply Hdiv; assumption|apply Zmod.NoDup_invertibles]].
      intros [H|H]; [|exact (Hz H)].
      apply (f_equal Zmod.unsigned) in H.
      rewrite Zmod.unsigned_of_Z, Zmod.unsigned_0, Z.mod_small in H by lia. lia.
    - intros y _. apply Zmod.in_elements. lia. }
  lia.
Qed.
End lucas.


Lemma prime63_prime : Z.prime prime63.
Proof.
  apply (lucas prime63 5 [2; 2; 3; 3; 3; 359; 7005787; 33955849]).
  - vm_compute. congruence.
  - vm_compute. reflexivity.
  - vm_compute. reflexivity.
  - repeat constructor; apply ProbablyPrime_spec; vm_compute; reflexivity.
  - vm_compute. reflexivity.
  - repeat constructor; vm_compute; congruence.
Qed.

(** C8 fails above [2^63]: [NewMaglev] accepts the prime [2^63 + 29], and on
    the instance it returns the key [2^63], which is its own remainder,
    is converted to the negative [int] [-2^63]. *)
Lemma PartitionID_negative_above_2_63 :
  exists m, NewMaglev [] prime63 hasher1 hasher2 = Ok (Some m, None) /\
    Partitions m = prime63 /\ 0 <= 2 ^ 63 < two64 /\
    2 ^ 63 mod Partitions m = 2 ^ 63 /\
    PartitionID m (2 ^ 63) = Ok (- 2 ^ 63).
Proof.
  rewrite (NewMaglev_no_nodes prime63 hasher1 hasher2 prime63_prime).
  eexists. split; [reflexivity|]. vm_compute. conjs; try reflexivity; congruence.
Qed.

(** * Further properties of the operations *)

(** ** Construction *)

(** X1. [NewMaglev] returns the primality error exactly for the partition
    counts that are not prime, whatever the nodes and the hashers; and it
    returns that error or an instance, never both and never another error. *)
Theorem NewMaglev_error_iff_composite (ns : list string) (p : Z) (H1 H2 : Hasher) :
  (NewMaglev ns p H1 H2 = Ok (None, Some "number of partitions must be prime"%string)
     <-> ~ Z.prime p) /\
  (forall r e, NewMaglev ns p H1 H2 = Ok (r, e) ->
     (r = None /\ e = Some "number of partitions must be prime"%string) \/
     (e = None /\ exists m, r = Some m /\ Partitions m = p /\ Z.prime p)).
Proof.
  split.
  - split; [|apply NewMaglev_not_prime].
    intros E Hpr. apply ProbablyPrime_spec in Hpr. unfold NewMaglev in E.
    rewrite Hpr in E. cbn [negb] in E.
    destruct (0 <? length ns)%nat; [|discriminate].
    apply bind_Ok in E as (m1 & _ & E). apply bind_Ok in E as (m2 & _ & E). discriminate.
  - intros r e E. unfold NewMaglev in E. destruct (ProbablyPrime p) eqn:Hpr; cbn [negb] in E.
    + right. apply ProbablyPrime_spec in Hpr.
      destruct (0 <? length ns)%nat.
      * apply bind_Ok in E as (m1 & E1 & E). apply bind_Ok in E as (m2 & E2 & E).
        injection E as <- <-. split; [reflexivity|]. exists m2. split; [reflexivity|].
        split; [|exact Hpr].
        unfold generatePermutations in E1. apply bind_Ok in E1 as (ps & _ & E1).
        injection E1 as <-. unfold populateLookup in E2.
        destruct (length _ =? 0)%nat; [discriminate|].
        apply bind_Ok in E2 as (tbl & _ & E2). injection E2 as <-. reflexivity.
      * injection E as <- <-. split; [reflexivity|]. eexists. split; [reflexivity|].
        split; [reflexivity|exact Hpr].
    + left. injection E as <- <-. auto.
Qed.

(** X2. From a non-empty list of distinct, non-empty identifiers and a
    prime partition count below [2^32], [NewMaglev] returns an instance and
    no error: its node list is the given list in strictly increasing order,
    its table has one slot per partition, and [Lookup] answers every key
    with one of the given nodes. *)
Theorem NewMaglev_builds (ns : list string) (p : Z) (H1 H2 : Hasher) :
  Z.prime p -> p < 2 ^ 32 -> NoDup ns -> ns <> [] -> EmptyString ∉ ns ->
  exists m, NewMaglev ns p H1 H2 = Ok (Some m, None) /\
    nodes m ≡ₚ ns /\ strictly_sorted (nodes m) /\
    Size m = Z.of_nat (length ns) /\ Partitions m = p /\
    length (lookup m) = Z.to_nat p /\
    forall key, exists s, Lookup m key = Ok s /\ s ∈ ns.
Proof.
  intros Hpr Hlt Hnd Hne Hblank. pose proof (Z.prime_ge_2 _ Hpr) as H2p.
  destruct (NewMaglev_spec ns p H1 H2 Hpr Hlt Hnd Hne)
    as (m & E & Hwf & Hn & Hp & _ & _ & Hlen & _ & Hown).
  exists m. conjs; auto.
  - rewrite Hn. apply sort_strings_Permutation.
  - exact (wf_sorted _ Hwf).
  - unfold Size. rewrite Hn, (Permutation_length (sort_strings_Permutation ns)). reflexivity.
  - intros key. destruct (Lookup_in_table m key) as (s & Hs & Hin).
    + rewrite Hp. lia.
    + rewrite Hp. exact Hlen.
    + exists s. split; [exact Hs|]. exact (Hown Hblank _ _ Hin).
Qed.

Lemma NewMaglev_builds_witness :
  exists m, NewMaglev ["c"; "a"; "b"] 7 hasher1 hasher2 = Ok (Some m, None) /\
    nodes m ≡ₚ ["c"; "a"; "b"] /\ strictly_sorted (nodes m) /\
    Size m = Z.of_nat (length ["c"; "a"; "b"]) /\ Partitions m = 7 /\
    length (lookup m) = Z.to_nat 7 /\
    forall key, exists s, Lookup m key = Ok s /\ s ∈ ["c"; "a"; "b"].
Proof.
  apply (NewMaglev_builds ["c"; "a"; "b"] 7 hasher1 hasher2).
  - apply ProbablyPrime_spec. vm_compute. reflexivity.
  - reflexivity.
  - apply (bool_decide_unpack _). vm_compute. exact I.
  - discriminate.
  - apply (bool_decide_unpack _). vm_compute. exact I.
Defined.

(** ** The order of the node list *)

Lemma insert_sorted_sorted (x : string) (l : list string) :
  sorted l -> sorted (insert_sorted x l).
Proof.
  unfold sorted. induction l as [|y l IH]; intros Hs; simpl.
  - repeat constructor.
  - apply StronglySorted_cons in Hs as [Hy Hl]. destruct (str_lt y x) eqn:E.
    + apply StronglySorted_cons. split; [|apply IH; exact Hl].
      rewrite insert_sorted_Permutation. constructor; [|exact Hy].
      apply str_lt_asym. exact E.
    + apply StronglySorted_cons. split.
      * constructor; [exact E|]. eapply Forall_impl; [exact Hy|].
        intros z Hz. unfold str_le in *. exact (le_trans_false _ _ _ Hz E).
      * apply StronglySorted_cons. auto.
Qed.

Lemma sort_strings_sorted (l : list string) : sorted (sort_strings l).
Proof.
  induction l as [|x l IH]; simpl; [constructor|]. apply insert_sorted_sorted. exact IH.
Qed.

Lemma sorted_unique (l1 l2 : list string) :
  sorted l1 -> sorted l2 -> l1 ≡ₚ l2 -> l1 = l2.
Proof.
  apply StronglySorted_unique_strong. intros a b _ _ Hab Hba. unfold str_le in *.
  destruct (str_trichotomy a b) as [H|[H|H]]; congruence.
Qed.

Lemma sort_strings_id (l : list string) : sorted l -> sort_strings l = l.
Proof.
  intros Hs. apply sorted_unique; [apply sort_strings_sorted|exact Hs|].
  apply sort_strings_Permutation.
Qed.

(** X3. The instance [NewMaglev] returns does not depend on the order in
    which the nodes are listed. *)
Theorem NewMaglev_order_irrelevant (ns ns' : list string) (p : Z) (H1 H2 : Hasher) :
  ns ≡ₚ ns' -> NewMaglev ns p H1 H2 = NewMaglev ns' p H1 H2.
Proof.
  intros HP. unfold NewMaglev.
  assert (sort_strings ns = sort_strings ns') as ->.
  { apply sorted_unique; [apply sort_strings_sorted..|].
    rewrite !sort_strings_Permutation. exact HP. }
  rewrite (Permutation_length HP). reflexivity.
Qed.

Lemma NewMaglev_order_irrelevant_witness :
  NewMaglev ["c"; "a"; "b"] 7 hasher1 hasher2 = NewMaglev ["a"; "b"; "c"] 7 hasher1 hasher2.
Proof.
  apply (NewMaglev_order_irrelevant ["c"; "a"; "b"] ["a"; "b"; "c"] 7 hasher1 hasher2).
  apply (bool_decide_unpack _). vm_compute. exact I.
Defined.

(** ** An instance without nodes *)

(** X4. For a prime partition count and no node, [NewMaglev] returns an
    instance without table: on it [Lookup] panics for every key, [Add]
    without argument panics in the table builder, and [Remove] without
    argument reports that no node is left. *)
Theorem instance_without_nodes (p : Z) (H1 H2 : Hasher) :
  Z.prime p ->
  exists m, NewMaglev [] p H1 H2 = Ok (Some m, None) /\
    Size m = 0 /\ Partitions m = p /\
    (forall key, Lookup m key = Panic IndexOutOfRange) /\
    Add m [] = Panic (Explicit "cannot populate lookup table without nodes") /\
    Remove m [] = Ok (m, 0, Some "there are no nodes left"%string).
Proof.
  intros Hpr. rewrite (NewMaglev_no_nodes p H1 H2 Hpr). eexists. split; [reflexivity|].
  conjs; try reflexivity.
  intros key. unfold Lookup, PartitionID, u64_rem. simpl.
  pose proof (Z.prime_ge_2 _ Hpr).
  destruct (Z.eqb_spec p 0) as [F|_]; [lia|]. cbn [mbind outcome_bind].
  destruct (int_of_u64 (key mod p) <? 0); [reflexivity|]. apply index_ge. simpl. lia.
Qed.

Lemma instance_without_nodes_witness :
  exists m, NewMaglev [] 7 hasher1 hasher2 = Ok (Some m, None) /\
    Size m = 0 /\ Partitions m = 7 /\
    (forall key, Lookup m key = Panic IndexOutOfRange) /\
    Add m [] = Panic (Explicit "cannot populate lookup table without nodes") /\
    Remove m [] = Ok (m, 0, Some "there are no nodes left"%string).
Proof.
  apply (instance_without_nodes 7 hasher1 hasher2).
  apply ProbablyPrime_spec. vm_compute. reflexivity.
Defined.

(** ** Preference sequences *)

(** X5. For a prime partition count below [2^32] the generator returns, for
    every node, a sequence that lists each partition once: it starts at the
    node's offset [h1 mod p] and each entry is the one before it plus the
    node's stride [h2 mod (p - 1) + 1], modulo [p]. *)
Theorem generated_permutation_progression (m : Maglev) (node : string) :
  Z.prime (numPartitions m) -> numPartitions m < 2 ^ 32 ->
  exists perm, generatePermutationsForNode m node = Ok perm /\
    full_permutation (numPartitions m) perm /\ NoDup perm /\
    length perm = Z.to_nat (numPartitions m) /\
    perm !! 0%nat = Some (Hash (h1 m) node mod numPartitions m) /\
    forall i c, perm !! i = Some c -> (S i < length perm)%nat ->
      perm !! S i =
        Some ((c + (Hash (h2 m) node mod (numPartitions m - 1) + 1)) mod numPartitions m).
Proof.
  intros Hpr Hlt. pose proof (Z.prime_ge_2 _ Hpr) as H2.
  assert (2 <= numPartitions m < two64) as Hp by (unfold two64; lia).
  destruct (generated_full_permutation m node Hpr Hlt) as (perm & E & Hf).
  pose proof (Permutation_length Hf) as Hlen. rewrite length_seqZ in Hlen.
  set (p := numPartitions m) in *.
  set (offset := Hash (h1 m) node mod p). set (skip := Hash (h2 m) node mod (p - 1) + 1).
  assert (0 <= offset < p) as Ho by (apply Z.mod_pos_bound; lia).
  assert (1 <= skip < p) as Hs.
  { pose proof (Z.mod_pos_bound (Hash (h2 m) node) (p - 1) ltac:(lia)). unfold skip. lia. }
  assert (forall i, 0 <= i < p -> perm !! Z.to_nat i = Some ((offset + i * skip) mod p)) as Hent.
  { intros i Hi. rewrite (generated_entry m node perm i Hp E Hi). fold p offset skip.
    rewrite perm_entry_exact by lia. reflexivity. }
  exists perm. conjs; auto.
  - unfold full_permutation in Hf. rewrite Hf. apply NoDup_seqZ.
  - pose proof (Hent 0 ltac:(lia)) as H0. change (Z.to_nat 0) with 0%nat in H0.
    rewrite H0, Z.mul_0_l, Z.add_0_r, Z.mod_small by lia. reflexivity.
  - intros i c Hi HS.
    pose proof (Hent (Z.of_nat i) ltac:(lia)) as H0. rewrite Nat2Z.id, Hi in H0.
    injection H0 as ->.
    pose proof (Hent (Z.of_nat (S i)) ltac:(lia)) as H1. rewrite Nat2Z.id in H1.
    rewrite H1. f_equal. rewrite Z.add_mod_idemp_l by lia. f_equal. lia.
Qed.

Lemma generated_permutation_progression_witness :
  exists perm, generatePermutationsForNode abc7 "c" = Ok perm /\
    full_permutation (numPartitions abc7) perm /\ NoDup perm /\
    length perm = Z.to_nat (numPartitions abc7) /\
    perm !! 0%nat = Some (Hash (h1 abc7) "c" mod numPartitions abc7) /\
    forall i c, perm !! i = Some c -> (S i < length perm)%nat ->
      perm !! S i =
        Some ((c + (Hash (h2 abc7) "c" mod (numPartitions abc7 - 1) + 1)) mod numPartitions abc7).
Proof.
  apply (generated_permutation_progression abc7 "c").
  - apply ProbablyPrime_spec. vm_compute. reflexivity.
  - vm_compute. reflexivity.
Defined.

(** X6. For a partition count from 2 to below [2^32],
    [generatePermutations] replaces the cache by a fresh one that holds an
    entry for each node of the list and for nothing else; the entry of a
    node is what the generator returns for it, a sequence with one element
    per partition.  The node list and the table are left alone. *)
Theorem generatePermutations_caches_nodes (m : Maglev) :
  2 <= numPartitions m < 2 ^ 32 ->
  exists g m', generatePermutations m = Ok m' /\ permutations m' = Some g /\
    nodes m' = nodes m /\ lookup m' = lookup m /\ Partitions m' = Partitions m /\
    (forall ID, is_Some (g !! ID) <-> ID ∈ nodes m) /\
    (forall ID, ID ∈ nodes m ->
       generatePermutationsForNode m ID = Ok (perm_of (permutations m') ID)) /\
    (forall ID perm, g !! ID = Some perm -> length perm = Z.to_nat (numPartitions m)).
Proof.
  intros Hp32. assert (2 <= numPartitions m < two64) as Hp by (unfold two64; lia).
  destruct (generatePermutations_spec m Hp) as (g & E & Hg).
  exists g, (set_permutations m (Some g)). conjs; auto.
  - intros ID. rewrite Hg. destruct (decide (ID ∈ nodes m)) as [Hin|Hnin].
    + split; [auto|]. intros _. eexists. reflexivity.
    + split; [|contradiction]. intros [x Hx]. discriminate.
  - intros ID HID. simpl. rewrite Hg, decide_True by exact HID. simpl.
    apply generatePermutationsForNode_eq. exact Hp.
  - intros ID perm Hperm. rewrite Hg in Hperm.
    destruct (decide (ID ∈ nodes m)); [|discriminate]. injection Hperm as <-.
    unfold permutation_for. rewrite length_fmap, length_seqZ. reflexivity.
Qed.

Lemma generatePermutations_caches_nodes_witness :
  exists g m', generatePermutations abc7 = Ok m' /\ permutations m' = Some g /\
    nodes m' = nodes abc7 /\ lookup m' = lookup abc7 /\ Partitions m' = Partitions abc7 /\
    (forall ID, is_Some (g !! ID) <-> ID ∈ nodes abc7) /\
    (forall ID, ID ∈ nodes abc7 ->
       generatePermutationsForNode abc7 ID = Ok (perm_of (permutations m') ID)) /\
    (forall ID perm, g !! ID = Some perm -> length perm = Z.to_nat (numPartitions abc7)).
Proof.
  apply (generatePermutations_caches_nodes abc7). vm_compute. split; congruence.
Defined.

(** ** Membership test *)

(** X7. On a sorted node list [Contains] is decided by where the probed
    identifier sorts: after every member (or with no member) the call panics,
    and otherwise it answers whether the identifier is a node. *)
Theorem Contains_by_position (m : Maglev) (x : string) :
  sorted (nodes m) ->
  Contains m x =
    if forallb (fun s => str_lt s x) (nodes m) then Panic IndexOutOfRange
    else Ok (bool_decide (x ∈ nodes m)).
Proof.
  intros Hs. destruct (forallb (fun s => str_lt s x) (nodes m)) eqn:E.
  - rewrite forallb_forall in E. unfold Contains.
    assert (Forall (fun s => str_lt s x = true) (nodes m)) as Hall.
    { apply Forall_forall. intros s Hin. apply E, list_elem_of_In. exact Hin. }
    rewrite (SearchStrings_past_end _ _ Hall). cbn [mbind outcome_bind].
    rewrite index_ge by lia. reflexivity.
  - apply Contains_in_range; [exact Hs|].
    apply Exists_exists. apply not_true_iff_false in E.
    destruct (decide (Exists (fun s => str_lt s x = false) (nodes m))) as [H|H].
    + apply Exists_exists in H. exact H.
    + exfalso. apply E. apply forallb_forall. intros s Hin.
      destruct (str_lt s x) eqn:Hsx; [reflexivity|]. exfalso. apply H.
      apply Exists_exists. exists s. split; [apply list_elem_of_In; exact Hin|exact Hsx].
Qed.

Lemma Contains_by_position_witness :
  Contains abc7 "ab" =
    if forallb (fun s => str_lt s "ab") (nodes abc7) then Panic IndexOutOfRange
    else Ok (bool_decide ("ab" ∈ nodes abc7)).
Proof.
  apply (Contains_by_position abc7 "ab").
  apply strictly_sorted_sorted. rewrite abc7_nodes. repeat constructor.
Defined.

(** ** One step of the membership loops *)

Lemma permutation_for_ext (m m' : Maglev) (ID : string) :
  numPartitions m' = numPartitions m -> h1 m' = h1 m -> h2 m' = h2 m ->
  permutation_for m' ID = permutation_for m ID.
Proof. intros Hp Hh1 Hh2. unfold permutation_for. rewrite Hp, Hh1, Hh2. reflexivity. Qed.

Lemma Add_step (m : Maglev) (x : string) :
  well_formed m -> numPartitions m < 2 ^ 32 ->
  x ∉ nodes m -> Exists (fun s => str_lt s x = false) (nodes m) ->
  exists m', (forall rest n, Add_loop m (x :: rest) n = Add_loop m' rest (n + 1)) /\
    well_formed m' /\ numPartitions m' = numPartitions m /\
    h1 m' = h1 m /\ h2 m' = h2 m /\ lookup m' = lookup m /\
    (forall y, y ∈ nodes m' <-> y = x \/ y ∈ nodes m) /\
    length (nodes m') = S (length (nodes m)) /\
    perm_of (permutations m') x = permutation_for m x /\
    (forall ID, ID <> x -> perm_of (permutations m') ID = perm_of (permutations m) ID).
Proof.
  intros [Hpr H64 Hs Hc] Hlt Hnin Hex. pose proof (Z.prime_ge_2 _ Hpr) as H2.
  destruct (probe_absent _ _ (strictly_sorted_sorted _ Hs) Hnin Hex)
    as (pos & s & E & Hpos & Hne & Hlo & Hhi).
  destruct (cached_map m s ltac:(lia) Hc (list_elem_of_lookup_2 _ _ _ Hpos)) as [g Hg].
  set (ns := take pos (nodes m) ++ [x] ++ drop pos (nodes m)).
  exists {| permutations := Some (<[x := permutation_for m x]> g); lookup := lookup m;
            nodes := ns; numPartitions := numPartitions m; h1 := h1 m; h2 := h2 m |}.
  assert (forall y, y ∈ ns <-> y = x \/ y ∈ nodes m) as Hmem.
  { intros y. unfold ns. rewrite <- (take_drop pos (nodes m)) at 3.
    rewrite !elem_of_app, elem_of_cons, elem_of_nil. tauto. }
  conjs; try reflexivity.
  - intros rest n. cbn [Add_loop]. rewrite E. cbn [mbind outcome_bind].
    rewrite (proj2 (index_Ok _ _ _) Hpos). cbn [mbind outcome_bind].
    apply String.eqb_neq in Hne. rewrite Hne. cbn [negb].
    rewrite generatePermutationsForNode_eq by (simpl; lia).
    cbn [mbind outcome_bind]. unfold set_permutations, set_nodes.
    cbn [permutations lookup nodes numPartitions h1 h2]. rewrite Hg. reflexivity.
  - constructor; simpl; try assumption.
    + apply insert_at_strictly_sorted; assumption.
    + intros ID HID. simpl in HID. simpl.
      destruct (decide (ID = x)) as [->|Hd].
      * rewrite lookup_insert_eq. simpl. apply permutation_for_full; assumption.
      * rewrite lookup_insert_ne by congruence. apply Hmem in HID as [?|HID]; [congruence|].
        specialize (Hc ID HID). rewrite Hg in Hc. exact Hc.
  - exact Hmem.
  - simpl. unfold ns. rewrite !length_app, length_take, length_drop. simpl.
    pose proof (lookup_lt_Some _ _ _ Hpos). lia.
  - simpl. rewrite lookup_insert_eq. reflexivity.
  - intros ID Hd. simpl. rewrite lookup_insert_ne by congruence. rewrite Hg. reflexivity.
Qed.

Lemma Add_loop_canonical (args : list string) :
  forall (m m1 : Maglev) (n n1 : Z),
  well_formed m -> numPartitions m < 2 ^ 32 -> canonical m ->
  Add_loop m args n = Ok (m1, n1) -> canonical m1.
Proof.
  induction args as [|x rest IH]; intros m m1 n n1 Hwf Hlt Hcan E.
  - injection E as <- <-. exact Hcan.
  - pose proof (Add_loop_in_range _ _ _ _ Hwf Hlt E) as Hr.
    apply Forall_cons in Hr as [Hx _].
    destruct (decide (x ∈ nodes m)) as [Hin|Hnin].
    + rewrite (Add_loop_member m x rest n (wf_sorted _ Hwf) Hin) in E.
      exact (IH _ _ _ _ Hwf Hlt Hcan E).
    + destruct (Add_step m x Hwf Hlt Hnin Hx)
        as (m' & E' & Hwf' & Hp' & Hh1 & Hh2 & _ & Hmem & _ & Hpx & Hpo).
      rewrite E' in E. apply (IH _ _ _ _ Hwf' ltac:(rewrite Hp'; exact Hlt)) in E; [exact E|].
      intros ID HID. rewrite (permutation_for_ext m m' ID Hp' Hh1 Hh2).
      destruct (decide (ID = x)) as [->|Hd]; [exact Hpx|].
      rewrite (Hpo ID Hd). apply Hcan. apply Hmem in HID as [?|HID]; [congruence|exact HID].
Qed.

Lemma Remove_loop_absent (m : Maglev) (x : string) (rest : list string) (n : Z) :
  sorted (nodes m) -> x ∉ nodes m -> Exists (fun s => str_lt s x = false) (nodes m) ->
  Remove_loop m (x :: rest) n = Remove_loop m rest n.
Proof.
  intros Hs Hnin Hex.
  destruct (probe_absent _ _ Hs Hnin Hex) as (pos & s & E & Hpos & Hne & _).
  cbn [Remove_loop]. rewrite E. cbn [mbind outcome_bind].
  rewrite (proj2 (index_Ok _ _ _) Hpos). cbn [mbind outcome_bind].
  apply String.eqb_neq in Hne. rewrite Hne. reflexivity.
Qed.

Lemma Remove_step (m : Maglev) (x : string) :
  well_formed m -> x ∈ nodes m ->
  exists m', (forall rest n, Remove_loop m (x :: rest) n = Remove_loop m' rest (n + 1)) /\
    well_formed m' /\ numPartitions m' = numPartitions m /\
    h1 m' = h1 m /\ h2 m' = h2 m /\ lookup m' = lookup m /\
    (forall y, y ∈ nodes m' <-> y ∈ nodes m /\ y <> x) /\
    S (length (nodes m')) = length (nodes m) /\
    (forall ID, ID <> x -> perm_of (permutations m') ID = perm_of (permutations m) ID).
Proof.
  intros [Hpr H64 Hs Hc] Hin.
  destruct (probe_member _ _ Hs Hin) as (pos & E & Hpos).
  destruct (remove_at_strictly_sorted _ _ _ Hs Hpos) as [Hs' Hmem].
  set (ns := take pos (nodes m) ++ drop (S pos) (nodes m)) in *.
  exists {| permutations := perm_delete (permutations m) x; lookup := lookup m;
            nodes := ns; numPartitions := numPartitions m; h1 := h1 m; h2 := h2 m |}.
  assert (forall ID, ID <> x ->
    perm_of (perm_delete (permutations m) x) ID = perm_of (permutations m) ID) as Hpo.
  { intros ID Hd. destruct (permutations m) as [g|]; [|reflexivity].
    simpl. rewrite lookup_delete_ne by congruence. reflexivity. }
  conjs; try reflexivity.
  - intros rest n. cbn [Remove_loop]. rewrite E. cbn [mbind outcome_bind].
    rewrite (proj2 (index_Ok _ _ _) Hpos). cbn [mbind outcome_bind].
    rewrite String.eqb_refl. reflexivity.
  - constructor; simpl; try assumption.
    intros ID HID. simpl in HID. simpl. apply Hmem in HID as [HID Hd].
    rewrite (Hpo ID Hd). exact (Hc ID HID).
  - exact Hmem.
  - simpl. unfold ns. rewrite length_app, length_take, length_drop.
    pose proof (lookup_lt_Some _ _ _ Hpos). lia.
  - exact Hpo.
Qed.

(** What the removal loop leaves when it runs to its end. *)
Lemma Remove_loop_Ok (args : list string) :
  forall (m m1 : Maglev) (n n1 : Z),
  well_formed m -> Remove_loop m args n = Ok (m1, n1) ->
  well_formed m1 /\ (canonical m -> canonical m1) /\
  numPartitions m1 = numPartitions m /\ h1 m1 = h1 m /\ h2 m1 = h2 m /\
  (forall y, y ∈ nodes m1 <-> y ∈ nodes m /\ y ∉ args) /\
  Z.of_nat (length (nodes m1)) + (n1 - n) = Z.of_nat (length (nodes m)) /\ n <= n1.
Proof.
  induction args as [|x rest IH]; intros m m1 n n1 Hwf E.
  - injection E as <- <-. conjs; auto; try lia.
    intros y. rewrite elem_of_nil. tauto.
  - destruct (decide (x ∈ nodes m)) as [Hin|Hnin].
    + destruct (Remove_step m x Hwf Hin)
        as (m' & E' & Hwf' & Hp' & Hh1 & Hh2 & _ & Hmem & Hlen & Hpo).
      rewrite E' in E.
      destruct (IH _ _ _ _ Hwf' E) as (Hwf1 & Hcan & Hp & H1' & H2' & Hmem1 & Hlen1 & Hn).
      conjs; auto; try lia; try congruence.
      * intros Hc. apply Hcan. intros ID HID.
        rewrite (permutation_for_ext m m' ID Hp' Hh1 Hh2).
        apply Hmem in HID as [HID Hd]. rewrite (Hpo ID Hd). exact (Hc ID HID).
      * intros y. rewrite Hmem1, Hmem, not_elem_of_cons. tauto.
    + assert (Exists (fun s => str_lt s x = false) (nodes m)) as Hx.
      { cbn [Remove_loop] in E. apply bind_Ok in E as (pos & Epos & E).
        apply bind_Ok in E as (s & Es & _). apply index_Ok in Es.
        destruct (SearchStrings_sorted (nodes m) x (strictly_sorted_sorted _ (wf_sorted _ Hwf)))
          as (pos' & Epos' & _ & _ & Hhi).
        assert (pos' = pos) as -> by congruence.
        apply Exists_exists. exists s. split; [eapply list_elem_of_lookup_2; exact Es|].
        exact (Hhi pos s (Nat.le_refl _) Es). }
      rewrite (Remove_loop_absent m x rest n (strictly_sorted_sorted _ (wf_sorted _ Hwf)) Hnin Hx) in E.
      destruct (IH _ _ _ _ Hwf E) as (Hwf1 & Hcan & Hp & H1' & H2' & Hmem1 & Hlen1 & Hn).
      conjs; auto.
      intros y. rewrite Hmem1, not_elem_of_cons. split; [|tauto].
      intros [Hy Hr]. split; [exact Hy|]. split; [congruence|exact Hr].
Qed.

(** With a member that is not removed and that no argument sorts after,
    the removal loop runs to its end. *)
Lemma Remove_loop_runs (args : list string) (top : string) :
  forall (m : Maglev) (n : Z),
  well_formed m -> top ∈ nodes m -> top ∉ args ->
  Forall (fun x => str_lt top x = false) args ->
  exists m1 n1, Remove_loop m args n = Ok (m1, n1).
Proof.
  induction args as [|x rest IH]; intros m n Hwf Htop Hnot Hall.
  - exists m, n. reflexivity.
  - apply Forall_cons in Hall as [Hx Hrest]. apply not_elem_of_cons in Hnot as [Hne Hnot].
    destruct (decide (x ∈ nodes m)) as [Hin|Hnin].
    + destruct (Remove_step m x Hwf Hin) as (m' & E' & Hwf' & _ & _ & _ & _ & Hmem & _).
      rewrite E'. apply IH; auto. apply Hmem. auto.
    + rewrite (Remove_loop_absent m x rest n (strictly_sorted_sorted _ (wf_sorted _ Hwf)) Hnin).
      * apply IH; auto.
      * apply Exists_exists. eauto.
Qed.

(** ** The table is a function of the node list *)

Lemma claim_ext (ps ps' : option (gmap string (list Z))) (p : Z) (i : nat) (ID : string)
    (st : fill) :
  perm_of ps ID = perm_of ps' ID -> claim ps p i ID st = claim ps' p i ID st.
Proof. unfold claim. intros ->. reflexivity. Qed.

Lemma round_ext (ps ps' : option (gmap string (list Z))) (p : Z) (ids : list string) :
  Forall (fun ID => perm_of ps ID = perm_of ps' ID) ids ->
  forall i st, round ps p i ids st = round ps' p i ids st.
Proof.
  induction 1 as [|ID ids HID Hids IH]; intros i st; [reflexivity|].
  cbn [round]. rewrite (claim_ext ps ps' p i ID st HID).
  destruct (claim ps' p i ID st) as [[tbl|st']| |]; simpl; auto.
Qed.

Lemma rounds_ext (ps ps' : option (gmap string (list Z))) (p : Z) (ids : list string) :
  Forall (fun ID => perm_of ps ID = perm_of ps' ID) ids ->
  forall fuel st, rounds ps p ids fuel st = rounds ps' p ids fuel st.
Proof.
  intros H. induction fuel as [|fuel IH]; intros st; [reflexivity|].
  cbn [rounds]. rewrite (round_ext ps ps' p ids H).
  destruct (round ps' p 0 ids st) as [[tbl|st']| |]; simpl; auto.
Qed.

Lemma populateLookup_ext (m m' : Maglev) :
  nodes m' = nodes m -> numPartitions m' = numPartitions m ->
  (forall ID, ID ∈ nodes m -> perm_of (permutations m') ID = perm_of (permutations m) ID) ->
  forall tbl, populateLookup m = Ok (set_lookup m tbl) ->
  populateLookup m' = Ok (set_lookup m' tbl).
Proof.
  intros Hn Hp Hperm tbl E. unfold populateLookup in *. rewrite Hn, Hp.
  destruct (length (nodes m) =? 0)%nat; [discriminate|].
  rewrite (rounds_ext (permutations m') (permutations m)).
  - apply bind_Ok in E as (tbl' & -> & E). injection E as E.
    cbn [mbind outcome_bind]. rewrite E. reflexivity.
  - apply Forall_forall. exact Hperm.
Qed.

Lemma rebuild_settled (m : Maglev) (tbl : list string) :
  well_formed m -> canonical m -> populateLookup m = Ok (set_lookup m tbl) ->
  settled (set_lookup m tbl).
Proof.
  intros [Hpr H64 Hs Hc] Hcan E. split; [constructor; assumption|]. split; [exact Hcan|].
  rewrite populateLookup_set_lookup, E. reflexivity.
Qed.

Lemma settled_nonempty (m : Maglev) : settled m -> nodes m <> [].
Proof.
  intros (_ & _ & E) H0. unfold populateLookup in E. rewrite H0 in E. discriminate.
Qed.

Lemma settled_table (m : Maglev) :
  settled m ->
  length (lookup m) = Z.to_nat (numPartitions m) /\
  (forall c s, lookup m !! c = Some s -> s = EmptyString \/ s ∈ nodes m) /\
  (EmptyString ∉ nodes m -> forall c s, lookup m !! c = Some s -> s ∈ nodes m).
Proof.
  intros Hst. pose proof (settled_nonempty m Hst) as Hne. destruct Hst as (Hwf & _ & E).
  destruct (well_formed_rebuild m Hwf Hne) as (tbl & Eb & _ & Hlen & Hown & Hblank & _).
  rewrite E in Eb. injection Eb as Eb. apply (f_equal lookup) in Eb. simpl in Eb. subst tbl.
  auto.
Qed.

Lemma construction_settled (ns : list string) (p : Z) (H1 H2 : Hasher) :
  Z.prime p -> p < two64 -> strictly_sorted ns -> ns <> [] ->
  forall m, nodes m = ns -> numPartitions m = p -> h1 m = H1 -> h2 m = H2 ->
  well_formed m -> canonical m ->
  exists tbl, populateLookup m = Ok (set_lookup m tbl) /\
    exists m', NewMaglev ns p H1 H2 = Ok (Some m', None) /\ settled m' /\
      nodes m' = ns /\ lookup m' = tbl /\ numPartitions m' = p /\ h1 m' = H1 /\ h2 m' = H2.
Proof.
  intros Hpr H64 Hs Hne m Hn Hp Hh1 Hh2 Hwf Hcan. pose proof (Z.prime_ge_2 _ Hpr) as H2p.
  destruct (well_formed_rebuild m Hwf ltac:(rewrite Hn; exact Hne)) as (tbl & Eb & _).
  exists tbl. split; [exact Eb|].
  unfold NewMaglev. rewrite (proj2 (ProbablyPrime_spec p) Hpr). cbn [negb].
  rewrite (sort_strings_id ns (strictly_sorted_sorted _ Hs)).
  assert ((0 <? length ns)%nat = true) as ->.
  { apply Nat.ltb_lt. destruct ns; [congruence|simpl; lia]. }
  set (m0 := {| permutations := None; lookup := []; nodes := ns;
                numPartitions := p; h1 := H1; h2 := H2 |}).
  destruct (generatePermutations_spec m0 ltac:(simpl; lia)) as (g & Eg & Hg).
  rewrite Eg. cbn [mbind outcome_bind]. set (m1 := set_permutations m0 (Some g)).
  assert (forall ID, ID ∈ ns -> perm_of (permutations m1) ID = permutation_for m ID) as Hperm.
  { intros ID HID. simpl. rewrite Hg. simpl. rewrite decide_True by exact HID. simpl.
    symmetry. apply permutation_for_ext; simpl; congruence. }
  assert (populateLookup m1 = Ok (set_lookup m1 tbl)) as E1.
  { apply (populateLookup_ext m m1); auto.
    intros ID HID. rewrite Hn in HID. rewrite (Hperm ID HID). symmetry. apply Hcan.
    rewrite Hn. exact HID. }
  rewrite E1. cbn [mbind outcome_bind]. eexists. split; [reflexivity|].
  split; [|simpl; auto].
  apply rebuild_settled; [| |exact E1].
  - constructor; simpl; try assumption.
    intros ID HID. simpl in HID. rewrite (Hperm ID HID).
    rewrite <- (Hcan ID ltac:(rewrite Hn; exact HID)).
    pose proof (wf_cached _ Hwf ID ltac:(rewrite Hn; exact HID)) as Hf.
    rewrite Hp in Hf. exact Hf.
  - intros ID HID. simpl in HID. rewrite (Hperm ID HID).
    apply permutation_for_ext; simpl; congruence.
Qed.

Lemma NewMaglev_settled (ns : list string) (p : Z) (H1 H2 : Hasher) :
  Z.prime p -> p < 2 ^ 32 -> NoDup ns -> ns <> [] ->
  exists m, NewMaglev ns p H1 H2 = Ok (Some m, None) /\ settled m /\
    nodes m = sort_strings ns /\ numPartitions m = p /\ h1 m = H1 /\ h2 m = H2.
Proof.
  intros Hpr Hlt Hnd Hne. pose proof (Z.prime_ge_2 _ Hpr) as H2p.
  assert (p < two64) as H64 by (unfold two64; lia).
  unfold NewMaglev. rewrite (proj2 (ProbablyPrime_spec p) Hpr). cbn [negb].
  assert ((0 <? length ns)%nat = true) as ->.
  { apply Nat.ltb_lt. destruct ns; [congruence|simpl; lia]. }
  set (m := {| permutations := None; lookup := []; nodes := sort_strings ns;
               numPartitions := p; h1 := H1; h2 := H2 |}).
  destruct (generatePermutations_spec m ltac:(simpl; lia)) as (g & Eg & Hg).
  rewrite Eg. cbn [mbind outcome_bind]. set (m1 := set_permutations m (Some g)).
  assert (canonical m1) as Hcan.
  { intros ID HID. simpl in HID. simpl. rewrite Hg. simpl.
    rewrite decide_True by exact HID. reflexivity. }
  assert (well_formed m1) as Hwf.
  { constructor; simpl; try assumption.
    - apply sort_strings_strictly. exact Hnd.
    - intros ID HID. rewrite (Hcan ID HID). apply permutation_for_full; simpl; assumption. }
  assert (nodes m1 <> []) as Hne1.
  { simpl. intros E. pose proof (sort_strings_Permutation ns) as HP. rewrite E in HP.
    apply Permutation_nil_l in HP. congruence. }
  destruct (well_formed_rebuild m1 Hwf Hne1) as (tbl & E & _).
  rewrite E. cbn [mbind outcome_bind]. eexists. split; [reflexivity|].
  split; [apply rebuild_settled; assumption|]. simpl. auto.
Qed.

Lemma Lookup_Ok_in_table (m : Maglev) (key : Z) (s : string) :
  Lookup m key = Ok s -> exists c, lookup m !! c = Some s.
Proof.
  unfold Lookup. intros E. apply bind_Ok in E as (r & _ & E).
  destruct (r <? 0); [discriminate|]. apply index_Ok in E. eauto.
Qed.

Lemma settled_Lookup (m : Maglev) :
  settled m -> numPartitions m < 2 ^ 32 -> EmptyString ∉ nodes m ->
  forall key, exists s, Lookup m key = Ok s /\ s ∈ nodes m.
Proof.
  intros Hst Hlt Hblank key. destruct (settled_table m Hst) as (Hlen & _ & Hown).
  pose proof (Z.prime_ge_2 _ (wf_prime _ (proj1 Hst))) as H2.
  destruct (Lookup_in_table m key ltac:(lia) Hlen) as (s & E & Hs).
  exists s. split; [exact E|]. exact (Hown Hblank _ _ Hs).
Qed.

(** ** Membership changes on an instance at rest *)

(** X8. On an instance at rest with fewer than [2^32] partitions, an
    [Add] none of whose arguments sorts after every member returns: the node
    list is then the old list with the arguments, strictly increasing; the
    count is the number of nodes gained; the error is the capacity error
    exactly when the nodes outnumber the partitions; and the instance is at
    rest again, with the table rebuilt over the new list. *)
Theorem Add_inserts_and_rebuilds (m : Maglev) (args : list string) :
  settled m -> numPartitions m < 2 ^ 32 ->
  Forall (fun x => Exists (fun s => str_lt s x = false) (nodes m)) args ->
  exists m2 k, settled m2 /\
    Add m args =
      Ok (m2, k, if Partitions m2 <? Size m2
                 then Some "number of nodes exceed number of partitions"%string else None) /\
    (forall y, y ∈ nodes m2 <-> y ∈ nodes m \/ y ∈ args) /\
    Size m2 = Size m + k /\ 0 <= k /\ Partitions m2 = Partitions m /\
    h1 m2 = h1 m /\ h2 m2 = h2 m /\
    length (lookup m2) = Z.to_nat (Partitions m2) /\
    (EmptyString ∉ nodes m2 -> forall key, exists s, Lookup m2 key = Ok s /\ s ∈ nodes m2).
Proof.
  intros Hst Hlt Hall. pose proof (settled_nonempty m Hst) as Hne.
  destruct Hst as (Hwf & Hcan & _).
  destruct (Add_loop_spec args m 0 Hwf Hlt Hall)
    as (m1 & k & E & Hk & Hwf1 & Hp & Hh1 & Hh2 & _ & Hmem & Hlen).
  rewrite Z.add_0_l in E.
  pose proof (Add_loop_canonical args m m1 0 k Hwf Hlt Hcan E) as Hcan1.
  assert (nodes m1 <> []) as Hne1.
  { destruct (nodes m) as [|s l] eqn:En; [congruence|]. intros H0.
    assert (s ∈ nodes m1) as Hs by (apply Hmem; left; left). rewrite H0 in Hs. inversion Hs. }
  destruct (well_formed_rebuild m1 Hwf1 Hne1) as (tbl & Eb & _ & Hl & _).
  pose proof (rebuild_settled m1 tbl Hwf1 Hcan1 Eb) as Hst2.
  exists (set_lookup m1 tbl), k. unfold Size, Partitions. conjs; auto.
  - unfold Add. rewrite E. cbn [mbind outcome_bind]. rewrite Eb. cbn [mbind outcome_bind].
    destruct (numPartitions (set_lookup m1 tbl) <? Z.of_nat (length (nodes (set_lookup m1 tbl))));
      reflexivity.
  - intros Hblank. apply (settled_Lookup _ Hst2); [|exact Hblank].
    simpl. rewrite Hp. exact Hlt.
Qed.

Lemma abc7_settled : settled abc7.
Proof.
  destruct (NewMaglev_settled ["c"; "a"; "b"] 7 hasher1 hasher2) as (m & E & Hst & _).
  - apply ProbablyPrime_spec. vm_compute. reflexivity.
  - reflexivity.
  - apply (bool_decide_unpack _). vm_compute. exact I.
  - discriminate.
  - unfold abc7. rewrite E. exact Hst.
Qed.

Lemma Add_inserts_and_rebuilds_witness :
  exists m2 k, settled m2 /\
    Add abc7 ["ab"; "b"; "0"] =
      Ok (m2, k, if Partitions m2 <? Size m2
                 then Some "number of nodes exceed number of partitions"%string else None) /\
    (forall y, y ∈ nodes m2 <-> y ∈ nodes abc7 \/ y ∈ ["ab"; "b"; "0"]) /\
    Size m2 = Size abc7 + k /\ 0 <= k /\ Partitions m2 = Partitions abc7 /\
    h1 m2 = h1 abc7 /\ h2 m2 = h2 abc7 /\
    length (lookup m2) = Z.to_nat (Partitions m2) /\
    (EmptyString ∉ nodes m2 -> forall key, exists s, Lookup m2 key = Ok s /\ s ∈ nodes m2).
Proof.
  apply (Add_inserts_and_rebuilds abc7 ["ab"; "b"; "0"] abc7_settled eq_refl).
  rewrite abc7_nodes.
  repeat (apply Forall_cons; split); [..|apply Forall_nil; exact I];
    apply Exists_exists; exists "c"; (split; [|reflexivity]);
    apply (bool_decide_unpack _); vm_compute; exact I.
Defined.

(** X9. On an instance at rest, a [Remove] that leaves in place a member
    no argument sorts after returns without error: the node list is then the
    old list without the arguments, the count is the number of nodes lost,
    the instance is at rest again, and [Lookup] no longer answers with a
    removed node. *)
Theorem Remove_deletes_and_rebuilds (m : Maglev) (args : list string) (top : string) :
  settled m -> top ∈ nodes m -> top ∉ args ->
  Forall (fun x => str_lt top x = false) args ->
  exists m2 k, settled m2 /\ Remove m args = Ok (m2, k, None) /\
    (forall y, y ∈ nodes m2 <-> y ∈ nodes m /\ y ∉ args) /\
    Size m2 = Size m - k /\ 0 <= k /\ Partitions m2 = Partitions m /\
    h1 m2 = h1 m /\ h2 m2 = h2 m /\
    length (lookup m2) = Z.to_nat (Partitions m2) /\
    (EmptyString ∉ nodes m ->
       forall key s, Lookup m2 key = Ok s -> s ∈ nodes m /\ s ∉ args).
Proof.
  intros (Hwf & Hcan & _) Htop Hnot Hall.
  destruct (Remove_loop_runs args top m 0 Hwf Htop Hnot Hall) as (m1 & k & E).
  destruct (Remove_loop_Ok args m m1 0 k Hwf E)
    as (Hwf1 & Hcan1 & Hp & Hh1 & Hh2 & Hmem & Hlen & Hk).
  specialize (Hcan1 Hcan).
  assert (top ∈ nodes m1) as Htop1 by (apply Hmem; auto).
  assert (nodes m1 <> []) as Hne1 by (intros H0; rewrite H0 in Htop1; inversion Htop1).
  destruct (well_formed_rebuild m1 Hwf1 Hne1) as (tbl & Eb & _ & Hl & _ & Hown & _).
  pose proof (rebuild_settled m1 tbl Hwf1 Hcan1 Eb) as Hst2.
  exists (set_lookup m1 tbl), k. unfold Size, Partitions. conjs; auto; try (simpl; lia).
  - unfold Remove. rewrite E. cbn [mbind outcome_bind].
    destruct (Z.eqb_spec (Z.of_nat (length (nodes m1))) 0) as [F|_].
    + destruct (nodes m1); [congruence|simpl in F; lia].
    + rewrite Eb. reflexivity.
  - intros Hblank key s Hs. apply Lookup_Ok_in_table in Hs as [c Hc]. simpl in Hc.
    apply Hmem. apply (Hown ltac:(rewrite Hmem; tauto) c s Hc).
Qed.

Lemma Remove_deletes_and_rebuilds_witness :
  exists m2 k, settled m2 /\ Remove abc7 ["b"; "ab"; "a"] = Ok (m2, k, None) /\
    (forall y, y ∈ nodes m2 <-> y ∈ nodes abc7 /\ y ∉ ["b"; "ab"; "a"]) /\
    Size m2 = Size abc7 - k /\ 0 <= k /\ Partitions m2 = Partitions abc7 /\
    h1 m2 = h1 abc7 /\ h2 m2 = h2 abc7 /\
    length (lookup m2) = Z.to_nat (Partitions m2) /\
    (EmptyString ∉ nodes abc7 ->
       forall key s, Lookup m2 key = Ok s -> s ∈ nodes abc7 /\ s ∉ ["b"; "ab"; "a"]).
Proof.
  apply (Remove_deletes_and_rebuilds abc7 ["b"; "ab"; "a"] "c" abc7_settled).
  - rewrite abc7_nodes. apply (bool_decide_unpack _). vm_compute. exact I.
  - apply (bool_decide_unpack _). vm_compute. exact I.
  - repeat constructor.
Defined.

(** X10. [NewMaglev] leaves the instance at rest: from distinct nodes and a
    prime partition count below [2^32], the instance returned is well formed,
    caches for each node the sequence the generator computes for it, and
    holds the table [populateLookup] builds. *)
Theorem NewMaglev_leaves_at_rest (ns : list string) (p : Z) (H1 H2 : Hasher) :
  Z.prime p -> p < 2 ^ 32 -> NoDup ns -> ns <> [] ->
  exists m, NewMaglev ns p H1 H2 = Ok (Some m, None) /\ settled m /\
    (forall ID, ID ∈ ns ->
       generatePermutationsForNode m ID = Ok (perm_of (permutations m) ID)) /\
    populateLookup m = Ok m.
Proof.
  intros Hpr Hlt Hnd Hne. pose proof (Z.prime_ge_2 _ Hpr) as H2p.
  destruct (NewMaglev_settled ns p H1 H2 Hpr Hlt Hnd Hne) as (m & E & Hst & Hn & Hp & _).
  exists m. split; [exact E|]. split; [exact Hst|]. split; [|apply Hst].
  intros ID HID. destruct Hst as (_ & Hcan & _).
  rewrite Hcan by (rewrite Hn, sort_strings_Permutation; exact HID).
  apply generatePermutationsForNode_eq. rewrite Hp. unfold two64. lia.
Qed.

Lemma NewMaglev_leaves_at_rest_witness :
  exists m, NewMaglev ["c"; "a"; "b"] 7 hasher1 hasher2 = Ok (Some m, None) /\ settled m /\
    (forall ID, ID ∈ ["c"; "a"; "b"] ->
       generatePermutationsForNode m ID = Ok (perm_of (permutations m) ID)) /\
    populateLookup m = Ok m.
Proof.
  apply (NewMaglev_leaves_at_rest ["c"; "a"; "b"] 7 hasher1 hasher2).
  - apply ProbablyPrime_spec. vm_compute. reflexivity.
  - reflexivity.
  - apply (bool_decide_unpack _). vm_compute. exact I.
  - discriminate.
Defined.

(** X11. The table of an instance at rest is the one [NewMaglev] builds
    from its node list: whatever calls led to the instance, [NewMaglev] on
    the current nodes, partition count and hashers returns an instance with
    the same node list and the same table, which answers every key alike. *)
Theorem table_is_function_of_nodes (m : Maglev) :
  settled m ->
  exists m', NewMaglev (nodes m) (Partitions m) (h1 m) (h2 m) = Ok (Some m', None) /\
    nodes m' = nodes m /\ lookup m' = lookup m /\
    forall key, Lookup m' key = Lookup m key.
Proof.
  intros Hst. pose proof (settled_nonempty m Hst) as Hne. destruct Hst as (Hwf & Hcan & E).
  destruct (construction_settled (nodes m) (numPartitions m) (h1 m) (h2 m)
              (wf_prime _ Hwf) (wf_u64 _ Hwf) (wf_sorted _ Hwf) Hne m) as (tbl & Eb & m' & E' & _ & Hn & Hl & Hp & _);
    auto.
  rewrite E in Eb. injection Eb as Eb. apply (f_equal lookup) in Eb. simpl in Eb. subst tbl.
  exists m'. unfold Partitions. split; [exact E'|]. split; [exact Hn|]. split; [exact Hl|].
  intros key. unfold Lookup, PartitionID. rewrite Hp, Hl. reflexivity.
Qed.

Lemma table_is_function_of_nodes_witness :
  exists m', NewMaglev (nodes abc7) (Partitions abc7) (h1 abc7) (h2 abc7) = Ok (Some m', None) /\
    nodes m' = nodes abc7 /\ lookup m' = lookup abc7 /\
    forall key, Lookup m' key = Lookup abc7 key.
Proof. exact (table_is_function_of_nodes abc7 abc7_settled). Defined.

(** ** Round trips *)

Lemma strictly_sorted_same (l1 l2 : list string) :
  strictly_sorted l1 -> strictly_sorted l2 -> (forall y, y ∈ l1 <-> y ∈ l2) -> l1 = l2.
Proof.
  intros H1 H2 Hmem.
  apply sorted_unique; [apply strictly_sorted_sorted; assumption..|].
  apply NoDup_Permutation; [apply strictly_sorted_NoDup; assumption..|exact Hmem].
Qed.

Lemma settled_same_nodes (m m' : Maglev) :
  settled m -> canonical m' -> nodes m' = nodes m ->
  numPartitions m' = numPartitions m -> h1 m' = h1 m -> h2 m' = h2 m ->
  populateLookup m' = Ok (set_lookup m' (lookup m)).
Proof.
  intros (Hwf & Hcan & E) Hcan' Hn Hp Hh1 Hh2.
  apply (populateLookup_ext m m'); auto.
  - intros ID HID. rewrite Hcan by exact HID. rewrite Hcan' by (rewrite Hn; exact HID).
    apply permutation_for_ext; assumption.
  - rewrite set_lookup_lookup. exact E.
Qed.

(** X12. Adding an absent node and removing it again restores the
    instance as its callers see it: the node list and the table are those
    from before the two calls, and every key is answered as before. *)
Theorem Add_then_Remove_restores (m : Maglev) (x : string) :
  settled m -> numPartitions m < 2 ^ 32 ->
  x ∉ nodes m -> Exists (fun s => str_lt s x = false) (nodes m) ->
  exists m1 e m2, Add m [x] = Ok (m1, 1, e) /\ Remove m1 [x] = Ok (m2, 1, None) /\
    nodes m1 <> nodes m /\ nodes m2 = nodes m /\ lookup m2 = lookup m /\
    (forall key, Lookup m2 key = Lookup m key) /\ settled m2.
Proof.
  intros Hst Hlt Hnin Hex. pose proof (settled_nonempty m Hst) as Hne.
  pose proof Hst as (Hwf & Hcan & E0).
  destruct (Add_step m x Hwf Hlt Hnin Hex)
    as (m' & E' & Hwf' & Hp' & Hh1' & Hh2' & _ & Hmem' & Hlen' & _).
  assert (Add_loop m [x] 0 = Ok (m', 1)) as E1 by (rewrite E'; reflexivity).
  pose proof (Add_loop_canonical [x] m m' 0 1 Hwf Hlt Hcan E1) as Hcan'.
  assert (nodes m' <> []) as Hne' by (intros H0; rewrite H0 in Hlen'; discriminate).
  destruct (well_formed_rebuild m' Hwf' Hne') as (tbl1 & Eb1 & Hwf1 & _).
  set (m1 := set_lookup m' tbl1) in *.
  assert (x ∈ nodes m1) as Hx1 by (apply Hmem'; auto).
  destruct (Remove_step m1 x Hwf1 Hx1)
    as (m'' & E'' & Hwf'' & Hp'' & Hh1'' & Hh2'' & _ & Hmem'' & Hlen'' & _).
  assert (Remove_loop m1 [x] 0 = Ok (m'', 1)) as E2 by (rewrite E''; reflexivity).
  destruct (Remove_loop_Ok [x] m1 m'' 0 1 Hwf1 E2) as (_ & Hcan'' & _).
  assert (canonical m1) as Hcan1 by exact Hcan'. specialize (Hcan'' Hcan1).
  assert (nodes m'' = nodes m) as Hn.
  { apply strictly_sorted_same; [apply (wf_sorted _ Hwf'')|apply (wf_sorted _ Hwf)|].
    intros y. rewrite Hmem''. change (nodes m1) with (nodes m'). rewrite Hmem'.
    split; [intros [[->|Hy] Hd]; [congruence|exact Hy]|].
    intros Hy. split; [auto|]. intros ->. contradiction. }
  assert (populateLookup m'' = Ok (set_lookup m'' (lookup m))) as Eb2.
  { apply settled_same_nodes; auto; simpl in *; congruence. }
  exists m1, (if numPartitions m1 <? Z.of_nat (length (nodes m1))
             then Some "number of nodes exceed number of partitions"%string else None),
    (set_lookup m'' (lookup m)). conjs.
  - unfold Add. rewrite E1. cbn [mbind outcome_bind]. rewrite Eb1. cbn [mbind outcome_bind].
    destruct (numPartitions m1 <? Z.of_nat (length (nodes m1))); reflexivity.
  - unfold Remove. rewrite E2. cbn [mbind outcome_bind]. rewrite Hn.
    destruct (Z.eqb_spec (Z.of_nat (length (nodes m))) 0) as [F|_].
    + destruct (nodes m); [congruence|simpl in F; lia].
    + rewrite Eb2. reflexivity.
  - intros H0. apply Hnin. rewrite <- H0. exact Hx1.
  - exact Hn.
  - reflexivity.
  - intros key. unfold Lookup, PartitionID. simpl. rewrite Hp''. simpl. rewrite Hp'. reflexivity.
  - apply rebuild_settled; assumption.
Qed.

Lemma Add_then_Remove_restores_witness :
  exists m1 e m2, Add abc7 ["ab"] = Ok (m1, 1, e) /\ Remove m1 ["ab"] = Ok (m2, 1, None) /\
    nodes m1 <> nodes abc7 /\ nodes m2 = nodes abc7 /\ lookup m2 = lookup abc7 /\
    (forall key, Lookup m2 key = Lookup abc7 key) /\ settled m2.
Proof.
  apply (Add_then_Remove_restores abc7 "ab" abc7_settled eq_refl).
  - rewrite abc7_nodes. apply (bool_decide_unpack _). vm_compute. exact I.
  - rewrite abc7_nodes. right. left. reflexivity.
Defined.

(** X13. Removing a node that is not the last in order and adding it back
    restores the node list and the table; the second call reports the
    capacity error exactly when the instance was over capacity before. *)
Theorem Remove_then_Add_restores (m : Maglev) (x s : string) :
  settled m -> numPartitions m < 2 ^ 32 ->
  x ∈ nodes m -> s ∈ nodes m -> s <> x -> str_lt s x = false ->
  exists m1 m2,
    Remove m [x] = Ok (m1, 1, None) /\
    Add m1 [x] =
      Ok (m2, 1, if Partitions m <? Size m
                 then Some "number of nodes exceed number of partitions"%string else None) /\
    (x ∉ nodes m1) /\ nodes m2 = nodes m /\ lookup m2 = lookup m /\
    (forall key, Lookup m2 key = Lookup m key) /\ settled m2.
Proof.
  intros Hst Hlt Hx Hs Hsx Hge. pose proof Hst as (Hwf & Hcan & E0).
  destruct (Remove_step m x Hwf Hx)
    as (m' & E' & Hwf' & Hp' & Hh1' & Hh2' & _ & Hmem' & Hlen' & _).
  assert (Remove_loop m [x] 0 = Ok (m', 1)) as E1 by (rewrite E'; reflexivity).
  destruct (Remove_loop_Ok [x] m m' 0 1 Hwf E1) as (_ & Hcan' & _). specialize (Hcan' Hcan).
  assert (s ∈ nodes m') as Hs' by (apply Hmem'; auto).
  assert (nodes m' <> []) as Hne' by (intros H0; rewrite H0 in Hs'; inversion Hs').
  destruct (well_formed_rebuild m' Hwf' Hne') as (tbl1 & Eb1 & Hwf1 & _).
  set (m1 := set_lookup m' tbl1) in *.
  assert (x ∉ nodes m1) as Hx1 by (intros H; apply Hmem' in H as [_ H]; congruence).
  assert (numPartitions m1 < 2 ^ 32) as Hlt1 by (simpl; rewrite Hp'; exact Hlt).
  destruct (Add_step m1 x Hwf1 Hlt1 Hx1)
    as (m'' & E'' & Hwf'' & Hp'' & Hh1'' & Hh2'' & _ & Hmem'' & Hlen'' & _).
  { apply Exists_exists. exists s. auto. }
  assert (Add_loop m1 [x] 0 = Ok (m'', 1)) as E2 by (rewrite E''; reflexivity).
  assert (canonical m1) as Hcan1 by exact Hcan'.
  pose proof (Add_loop_canonical [x] m1 m'' 0 1 Hwf1 Hlt1 Hcan1 E2) as Hcan''.
  assert (nodes m'' = nodes m) as Hn.
  { apply strictly_sorted_same; [apply (wf_sorted _ Hwf'')|apply (wf_sorted _ Hwf)|].
    intros y. rewrite Hmem''. change (nodes m1) with (nodes m'). rewrite Hmem'.
    split; [intros [->|[Hy _]]; assumption|].
    intros Hy. destruct (decide (y = x)); auto. }
  assert (populateLookup m'' = Ok (set_lookup m'' (lookup m))) as Eb2.
  { apply settled_same_nodes; auto; simpl in *; congruence. }
  exists m1, (set_lookup m'' (lookup m)). conjs.
  - unfold Remove. rewrite E1. cbn [mbind outcome_bind].
    destruct (Z.eqb_spec (Z.of_nat (length (nodes m'))) 0) as [F|_].
    + destruct (nodes m'); [congruence|simpl in F; lia].
    + rewrite Eb1. reflexivity.
  - unfold Add. rewrite E2. cbn [mbind outcome_bind]. rewrite Eb2. cbn [mbind outcome_bind].
    unfold Partitions, Size. simpl. rewrite Hn, Hp''. simpl. rewrite Hp'.
    destruct (numPartitions m <? Z.of_nat (length (nodes m))); reflexivity.
  - exact Hx1.
  - exact Hn.
  - reflexivity.
  - intros key. unfold Lookup, PartitionID. simpl. rewrite Hp''. simpl. rewrite Hp'. reflexivity.
  - apply rebuild_settled; assumption.
Qed.

Lemma Remove_then_Add_restores_witness :
  exists m1 m2,
    Remove abc7 ["a"] = Ok (m1, 1, None) /\
    Add m1 ["a"] =
      Ok (m2, 1, if Partitions abc7 <? Size abc7
                 then Some "number of nodes exceed number of partitions"%string else None) /\
    ("a" ∉ nodes m1) /\ nodes m2 = nodes abc7 /\ lookup m2 = lookup abc7 /\
    (forall key, Lookup m2 key = Lookup abc7 key) /\ settled m2.
Proof.
  apply (Remove_then_Add_restores abc7 "a" "b" abc7_settled eq_refl).
  - rewrite abc7_nodes. apply (bool_decide_unpack _). vm_compute. exact I.
  - rewrite abc7_nodes. apply (bool_decide_unpack _). vm_compute. exact I.
  - discriminate.
  - reflexivity.
Defined.

(** ** More nodes than partitions *)

(** X14. [NewMaglev] does not compare the number of nodes with the number
    of partitions: given more distinct nodes than partitions it returns an
    instance and no error, in which each of the first [numPartitions] nodes
    in increasing order owns one partition and the other nodes own none. *)
Theorem NewMaglev_over_capacity (ns : list string) (p : Z) (H1 H2 : Hasher) :
  Z.prime p -> p < 2 ^ 32 -> NoDup ns -> p < Z.of_nat (length ns) ->
  exists m, NewMaglev ns p H1 H2 = Ok (Some m, None) /\
    Partitions m < Size m /\
    forall k ID, nodes m !! k = Some ID ->
      owned ID (lookup m) = if (k <? Z.to_nat p)%nat then 1%nat else 0%nat.
Proof.
  intros Hpr Hlt Hnd Hover. pose proof (Z.prime_ge_2 _ Hpr) as H2p.
  assert (ns <> []) as Hne by (intros ->; simpl in Hover; lia).
  destruct (NewMaglev_settled ns p H1 H2 Hpr Hlt Hnd Hne) as (m & E & Hst & Hn & Hp & _).
  pose proof (settled_nonempty m Hst) as Hne'. destruct Hst as (Hwf & _ & Em).
  assert (length (nodes m) = length ns) as Hlen.
  { rewrite Hn. apply Permutation_length, sort_strings_Permutation. }
  exists m. split; [exact E|]. unfold Partitions, Size. split; [lia|].
  destruct (populateLookup_spec m ltac:(unfold two64; lia) (wf_cached _ Hwf)
              (strictly_sorted_NoDup _ (wf_sorted _ Hwf)) Hne')
    as (tbl & r & i & Eb & _ & Hi & Ht & Hturns & _).
  rewrite Em in Eb. injection Eb as Eb. apply (f_equal lookup) in Eb. simpl in Eb. subst tbl.
  assert (r = 0%nat) as -> by nia. assert (i = Z.to_nat p) as -> by lia.
  intros k ID Hk. rewrite (Hturns k ID Hk). unfold turns.
  destruct (k <? Z.to_nat p)%nat; reflexivity.
Qed.

Lemma NewMaglev_over_capacity_witness :
  exists m, NewMaglev ["a"; "b"; "c"] 2 hasher1 hasher2 = Ok (Some m, None) /\
    Partitions m < Size m /\
    forall k ID, nodes m !! k = Some ID ->
      owned ID (lookup m) = if (k <? Z.to_nat 2)%nat then 1%nat else 0%nat.
Proof.
  apply (NewMaglev_over_capacity ["a"; "b"; "c"] 2 hasher1 hasher2).
  - apply ProbablyPrime_spec. vm_compute. reflexivity.
  - reflexivity.
  - apply (bool_decide_unpack _). vm_compute. exact I.
  - reflexivity.
Defined.

(** ** The earlier revision *)

(** X15. In the earlier revision a [Remove] that leaves no node goes on
    to rebuild the table, and panics in [populateLookup]. *)
Theorem Earlier_Remove_to_empty_panics (m m1 : Maglev) (args : list string) (n : Z) :
  Remove_loop m args 0 = Ok (m1, n) -> nodes m1 = [] ->
  Earlier.Remove m args = Panic (Explicit "cannot populate lookup table without nodes").
Proof.
  intros E Hn. unfold Earlier.Remove. rewrite E. cbn [mbind outcome_bind].
  unfold populateLookup. rewrite Hn. reflexivity.
Qed.

Lemma Earlier_Remove_to_empty_panics_witness :
  Earlier.Remove abc7 ["b"; "a"; "c"] =
    Panic (Explicit "cannot populate lookup table without nodes").
Proof.
  destruct (Remove_loop abc7 ["b"; "a"; "c"] 0) as [[m1 n]| |] eqn:E;
    [|vm_compute in E; discriminate..].
  assert (nodes m1 = []) as Hn by (vm_compute in E; injection E as <- <-; reflexivity).
  exact (Earlier_Remove_to_empty_panics abc7 m1 _ n E Hn).
Defined.

(** X16. The two revisions differ by the errors only.  Whatever the later
    [Add] returns, the earlier [Add] returns with the same instance and
    count and no error, and conversely; the two [Remove] agree whenever
    either of them returns without error. *)
Theorem revisions_agree (m : Maglev) (args : list string) :
  (forall m2 k e, Add m args = Ok (m2, k, e) -> Earlier.Add m args = Ok (m2, k, None)) /\
  (forall m2 k e, Earlier.Add m args = Ok (m2, k, e) ->
     e = None /\ exists e', Add m args = Ok (m2, k, e')) /\
  (forall m2 k, Remove m args = Ok (m2, k, None) -> Earlier.Remove m args = Ok (m2, k, None)) /\
  (forall m2 k e, Earlier.Remove m args = Ok (m2, k, e) ->
     e = None /\ Remove m args = Ok (m2, k, None)).
Proof.
  unfold Add, Earlier.Add, Remove, Earlier.Remove. conjs.
  - intros m2 k e E. apply bind_Ok in E as ([m1 n] & -> & E). cbn [mbind outcome_bind].
    apply bind_Ok in E as (m2' & -> & E). cbn [mbind outcome_bind].
    destruct (_ <? _); injection E as <- <- _; reflexivity.
  - intros m2 k e E. apply bind_Ok in E as ([m1 n] & -> & E). cbn [mbind outcome_bind].
    apply bind_Ok in E as (m2' & -> & E). cbn [mbind outcome_bind].
    injection E as <- <- <-. split; [reflexivity|].
    destruct (_ <? _); eexists; reflexivity.
  - intros m2 k E. apply bind_Ok in E as ([m1 n] & -> & E). cbn [mbind outcome_bind].
    destruct (_ =? _); [discriminate|].
    apply bind_Ok in E as (m2' & -> & E). exact E.
  - intros m2 k e E. apply bind_Ok in E as ([m1 n] & -> & E). cbn [mbind outcome_bind].
    apply bind_Ok in E as (m2' & E2 & E). injection E as <- <- <-. split; [reflexivity|].
    destruct (Z.eqb_spec (Z.of_nat (length (nodes m1))) 0) as [F|_].
    + unfold populateLookup in E2. destruct (nodes m1); [discriminate|simpl in F; lia].
    + rewrite E2. reflexivity.
Qed.

(** ** When [Add] and [Remove] panic *)

Lemma before_all_members (s0 x y : string) :
  str_lt s0 x = false -> str_lt s0 y = true -> str_lt x y = true.
Proof.
  intros Hx Hy. destruct (str_lt x y) eqn:E; [reflexivity|].
  rewrite (le_trans_false _ _ _ Hx E) in Hy. discriminate.
Qed.

Lemma Add_loop_out_of_range (args : list string) :
  forall (m : Maglev) (n : Z),
  well_formed m -> numPartitions m < 2 ^ 32 ->
  Exists (fun x => Forall (fun s => str_lt s x = true) (nodes m)) args ->
  Add_loop m args n = Panic IndexOutOfRange.
Proof.
  induction args as [|x rest IH]; intros m n Hwf Hlt Hex; [inversion Hex|].
  destruct (decide (Exists (fun s => str_lt s x = false) (nodes m))) as [Hx|Hx].
  - apply Exists_cons in Hex as [Hex|Hex].
    { exfalso. apply Exists_exists in Hx as (s & Hs & Hsx).
      rewrite Forall_forall in Hex. rewrite (Hex s Hs) in Hsx. discriminate. }
    destruct (decide (x ∈ nodes m)) as [Hin|Hnin].
    + rewrite (Add_loop_member m x rest n (wf_sorted _ Hwf) Hin). apply IH; assumption.
    + destruct (Add_step m x Hwf Hlt Hnin Hx) as (m' & E' & Hwf' & Hp' & _ & _ & _ & Hmem & _).
      rewrite E'. apply IH; [exact Hwf'|rewrite Hp'; exact Hlt|].
      eapply Exists_impl; [exact Hex|]. intros y Hy. simpl in Hy.
      rewrite Forall_forall in Hy. apply Forall_forall. intros s Hs.
      apply Hmem in Hs as [->|Hs]; [|exact (Hy s Hs)].
      apply Exists_exists in Hx as (s0 & Hs0 & Hs0x).
      exact (before_all_members s0 x y Hs0x (Hy s0 Hs0)).
  - assert (Forall (fun s => str_lt s x = true) (nodes m)) as Hall.
    { apply Forall_forall. intros s Hs. destruct (str_lt s x) eqn:E; [reflexivity|].
      exfalso. apply Hx. apply Exists_exists. eauto. }
    cbn [Add_loop]. rewrite (SearchStrings_past_end _ _ Hall). cbn [mbind outcome_bind].
    rewrite index_ge by lia. reflexivity.
Qed.

(** X17. On an instance at rest with fewer than [2^32] partitions, [Add]
    panics exactly when one of its arguments, at any position, sorts after
    every current member; the panic is the index out of range of the probe,
    and with no such argument the call returns. *)
Theorem Add_panics_iff_out_of_range (m : Maglev) (args : list string) :
  settled m -> numPartitions m < 2 ^ 32 ->
  (Add m args = Panic IndexOutOfRange <->
     Exists (fun x => Forall (fun s => str_lt s x = true) (nodes m)) args) /\
  ((exists r, Add m args = Ok r) <->
     Forall (fun x => Exists (fun s => str_lt s x = false) (nodes m)) args).
Proof.
  intros Hst Hlt. pose proof (settled_nonempty m Hst) as Hne. destruct Hst as (Hwf & _ & _).
  assert (Forall (fun x => Exists (fun s => str_lt s x = false) (nodes m)) args ->
          exists r, Add m args = Ok r) as Hok.
  { intros Hall.
    destruct (Add_loop_spec args m 0 Hwf Hlt Hall) as (m1 & k & E & _ & Hwf1 & _ & _ & _ & _ & Hmem & _).
    assert (nodes m1 <> []) as Hne1.
    { destruct (nodes m) as [|s l] eqn:En; [congruence|]. intros H0.
      assert (s ∈ nodes m1) as Hs by (apply Hmem; left; left). rewrite H0 in Hs. inversion Hs. }
    destruct (well_formed_rebuild m1 Hwf1 Hne1) as (tbl & Eb & _).
    unfold Add. rewrite E. cbn [mbind outcome_bind]. rewrite Eb. cbn [mbind outcome_bind].
    destruct (_ <? _); eexists; reflexivity. }
  assert (Exists (fun x => Forall (fun s => str_lt s x = true) (nodes m)) args ->
          Add m args = Panic IndexOutOfRange) as Hpanic.
  { intros Hex. unfold Add. rewrite (Add_loop_out_of_range args m 0 Hwf Hlt Hex). reflexivity. }
  assert (Forall (fun x => Exists (fun s => str_lt s x = false) (nodes m)) args \/
          Exists (fun x => Forall (fun s => str_lt s x = true) (nodes m)) args) as Hcases.
  { clear. induction args as [|x rest IH]; [left; constructor|].
    destruct (decide (Exists (fun s => str_lt s x = false) (nodes m))) as [Hx|Hx].
    - destruct IH as [IH|IH]; [left; constructor; assumption|right; right; exact IH].
    - right. left. apply Forall_forall. intros s Hs.
      destruct (str_lt s x) eqn:E; [reflexivity|].
      exfalso. apply Hx. apply Exists_exists. eauto. }
  split; split; auto.
  - intros E. destruct Hcases as [H|H]; [|exact H].
    destruct (Hok H) as [r Hr]. congruence.
  - intros [r Hr]. destruct Hcases as [H|H]; [exact H|].
    rewrite (Hpanic H) in Hr. discriminate.
Qed.

Lemma Add_panics_iff_out_of_range_witness :
  (Add abc7 ["ab"; "d"] = Panic IndexOutOfRange <->
     Exists (fun x => Forall (fun s => str_lt s x = true) (nodes abc7)) ["ab"; "d"]) /\
  ((exists r, Add abc7 ["ab"; "d"] = Ok r) <->
     Forall (fun x => Exists (fun s => str_lt s x = false) (nodes abc7)) ["ab"; "d"]).
Proof. exact (Add_panics_iff_out_of_range abc7 ["ab"; "d"] abc7_settled eq_refl). Defined.

(** X18. Naming the greatest node twice in one [Remove] panics: once it
    is removed, the second probe for it runs past the end of the node list. *)
Theorem Remove_greatest_twice_panics (m : Maglev) (x : string) (rest : list string) :
  well_formed m -> x ∈ nodes m ->
  Forall (fun s => s = x \/ str_lt s x = true) (nodes m) ->
  Remove m (x :: x :: rest) = Panic IndexOutOfRange.
Proof.
  intros Hwf Hx Hmax.
  destruct (Remove_step m x Hwf Hx) as (m' & E' & _ & _ & _ & _ & _ & Hmem & _).
  unfold Remove. rewrite E'.
  assert (Forall (fun s => str_lt s x = true) (nodes m')) as Hall.
  { apply Forall_forall. intros s Hs. apply Hmem in Hs as [Hs Hd].
    rewrite Forall_forall in Hmax. destruct (Hmax s Hs); [contradiction|assumption]. }
  cbn [Remove_loop]. rewrite (SearchStrings_past_end _ _ Hall). cbn [mbind outcome_bind].
  rewrite index_ge by lia. reflexivity.
Qed.

Lemma Remove_greatest_twice_panics_witness :
  Remove abc7 ["c"; "c"] = Panic IndexOutOfRange.
Proof.
  apply (Remove_greatest_twice_panics abc7 "c" [] abc7_well_formed).
  - rewrite abc7_nodes. apply (bool_decide_unpack _). vm_compute. exact I.
  - rewrite abc7_nodes. repeat (apply Forall_cons; split); [right; reflexivity..|left; reflexivity|].
    apply Forall_nil. exact I.
Defined.

(** ** Claimed slots stay claimed *)

Lemma skip_taken_free_now (perm : list Z) (tbl : list string) (fuel cur : nat) (c : Z) :
  tbl !! Z.to_nat c = Some EmptyString -> skip_taken perm tbl fuel cur c = Ok (cur, c).
Proof.
  intros H. destruct fuel; cbn [skip_taken];
    rewrite (proj2 (index_Ok _ _ _) H); reflexivity.
Qed.

Lemma skip_taken_out_of_range (perm : list Z) (tbl : list string) (fuel cur : nat) (c : Z) :
  tbl !! Z.to_nat c = None -> skip_taken perm tbl fuel cur c = Panic IndexOutOfRange.
Proof.
  intros H. destruct fuel; cbn [skip_taken]; unfold index; rewrite H; reflexivity.
Qed.

Lemma claim_keeps (ps : option (gmap string (list Z))) (p : Z) (i : nat) (ID : string)
    (st : fill) (r : list string + fill) (c : nat) (s : string) :
  claim ps p i ID st = Ok r -> table st !! c = Some s -> s <> EmptyString ->
  match r with inl tbl => tbl | inr st' => table st' end !! c = Some s.
Proof.
  unfold claim. intros E Hc Hs.
  apply bind_Ok in E as (cur & _ & E). apply bind_Ok in E as (c0 & _ & E).
  apply bind_Ok in E as ([cur' c'] & Es & E). apply skip_taken_stops_free in Es.
  assert (Z.to_nat c' <> c) as Hd by (intros <-; congruence).
  destruct (u64 (filled st + 1) =? p); injection E as <-; cbn [table];
    rewrite list_lookup_insert_ne by exact Hd; exact Hc.
Qed.

Lemma round_keeps (ps : option (gmap string (list Z))) (p : Z) (c : nat) (s : string)
    (ids : list string) :
  s <> EmptyString ->
  forall i st r, round ps p i ids st = Ok r -> table st !! c = Some s ->
  match r with inl tbl => tbl | inr st' => table st' end !! c = Some s.
Proof.
  intros Hs. induction ids as [|ID ids IH]; intros i st r E Hc.
  - injection E as <-. exact Hc.
  - cbn [round] in E. apply bind_Ok in E as (r1 & E1 & E).
    pose proof (claim_keeps ps p i ID st r1 c s E1 Hc Hs) as H1.
    destruct r1 as [tbl|st']; [injection E as <-; exact H1|].
    exact (IH _ _ _ E H1).
Qed.

Lemma rounds_keeps (ps : option (gmap string (list Z))) (p : Z) (c : nat) (s : string)
    (ids : list string) (fuel : nat) :
  s <> EmptyString ->
  forall st tbl, rounds ps p ids fuel st = Ok tbl -> table st !! c = Some s ->
  tbl !! c = Some s.
Proof.
  intros Hs. induction fuel as [|fuel IH]; intros st tbl E Hc; [discriminate|].
  cbn [rounds] in E. apply bind_Ok in E as (r & Er & E).
  pose proof (round_keeps ps p c s ids Hs 0%nat st r Er Hc) as H1.
  destruct r as [tbl'|st']; [injection E as <-; exact H1|].
  exact (IH _ _ E H1).
Qed.

(** X19. Whenever [populateLookup] returns, the first node of the list
    owns the partition it prefers most: the first turn finds every slot
    free, and no later turn takes a slot that holds a node. *)
Theorem first_node_owns_first_choice (m m' : Maglev) (ID : string) (rest : list string)
    (c : Z) :
  populateLookup m = Ok m' -> nodes m = ID :: rest -> ID <> EmptyString ->
  perm_of (permutations m) ID !! 0%nat = Some c ->
  lookup m' !! Z.to_nat c = Some ID.
Proof.
  intros E Hn HID Hc. unfold populateLookup in E. rewrite Hn in E.
  cbn [length Nat.eqb] in E. apply bind_Ok in E as (tbl & Er & E). injection E as <-.
  simpl. cbn [rounds] in Er. apply bind_Ok in Er as (r & Eround & Er).
  cbn [round] in Eround. apply bind_Ok in Eround as (r1 & Eclaim & Eround).
  assert (match r1 with inl t => t | inr st' => table st' end !! Z.to_nat c = Some ID) as H1.
  { unfold claim in Eclaim. cbn [next table filled] in Eclaim.
    apply bind_Ok in Eclaim as (cur & Ecur & Eclaim). apply index_Ok in Ecur.
    apply lookup_replicate in Ecur as [-> _].
    apply bind_Ok in Eclaim as (c0 & Ec0 & Eclaim). apply index_Ok in Ec0.
    assert (c0 = c) as -> by congruence.
    apply bind_Ok in Eclaim as ([cur' c'] & Es & Eclaim).
    destruct (replicate (Z.to_nat (numPartitions m)) EmptyString !! Z.to_nat c) as [s|] eqn:Hs.
    - pose proof (lookup_lt_Some _ _ _ Hs) as Hlt.
      apply lookup_replicate in Hs as [-> Hlt'].
      rewrite skip_taken_free_now in Es by (apply lookup_replicate; auto).
      injection Es as <- <-.
      destruct (u64 (0 + 1) =? numPartitions m); injection Eclaim as <-; cbn [table];
        apply list_lookup_insert_eq; exact Hlt.
    - rewrite (skip_taken_out_of_range _ _ _ _ _ Hs) in Es. discriminate. }
  destruct r1 as [t|st1].
  - injection Eround as <-. injection Er as <-. exact H1.
  - pose proof (round_keeps _ _ _ _ _ HID _ _ _ Eround H1) as H2.
    destruct r as [t|st2]; [injection Er as <-; exact H2|].
    exact (rounds_keeps _ _ _ _ _ _ HID _ _ Er H2).
Qed.

Lemma first_node_owns_first_choice_witness :
  lookup abc7 !! Z.to_nat 3 = Some "a"%string.
Proof.
  apply (first_node_owns_first_choice abc7 abc7 "a" ["b"; "c"] 3).
  - apply abc7_settled.
  - exact abc7_nodes.
  - discriminate.
  - vm_compute. reflexivity.
Defined.

(** ** After the last node is gone *)

(** X20. A [Remove] that leaves no node returns its error and an instance
    on which the repair its comment proposes cannot be made: [Add] panics
    whatever its arguments, and so does [Contains]. *)
Theorem emptied_instance_rejects_Add (m m1 : Maglev) (args : list string) (n : Z) :
  Remove_loop m args 0 = Ok (m1, n) -> nodes m1 = [] ->
  Remove m args = Ok (m1, n, Some "there are no nodes left"%string) /\
  Size m1 = 0 /\
  (forall x rest, Add m1 (x :: rest) = Panic IndexOutOfRange) /\
  Add m1 [] = Panic (Explicit "cannot populate lookup table without nodes") /\
  (forall x, Contains m1 x = Panic IndexOutOfRange).
Proof.
  intros E Hn. conjs.
  - unfold Remove. rewrite E. cbn [mbind outcome_bind]. rewrite Hn. reflexivity.
  - unfold Size. rewrite Hn. reflexivity.
  - intros x rest. apply (probe_empty_membership_panics m1 x rest Hn).
  - unfold Add. cbn [Add_loop mbind outcome_bind]. unfold populateLookup. rewrite Hn. reflexivity.
  - intros x. apply (probe_empty_membership_panics m1 x [] Hn).
Qed.

Lemma emptied_instance_rejects_Add_witness :
  exists m1,
  Remove abc7 ["c"; "b"; "a"] = Ok (m1, 3, Some "there are no nodes left"%string) /\
  Size m1 = 0 /\
  (forall x rest, Add m1 (x :: rest) = Panic IndexOutOfRange) /\
  Add m1 [] = Panic (Explicit "cannot populate lookup table without nodes") /\
  (forall x, Contains m1 x = Panic IndexOutOfRange).
Proof.
  destruct (Remove_loop abc7 ["c"; "b"; "a"] 0) as [[m1 n]| |] eqn:E;
    [|vm_compute in E; discriminate..].
  assert (n = 3 /\ nodes m1 = []) as [-> Hn].
  { vm_compute in E. injection E as <- <-. auto. }
  exists m1. exact (emptied_instance_rejects_Add abc7 m1 _ 3 E Hn).
Defined.
